(** * Streamdown + MDC demo: the streaming hook and the MDC render walk

    Two parts of the repository are embedded here:

    - [RevealEngine]: the [useStreamingText] hook of [App.tsx] (state cells,
      the [indexRef] and [intervalRef] refs, the interval callback and the
      operations [stop], [start], [pause], [resume], [reset], [complete]);
    - [Renderer]: [renderNode] and [MDCRenderer] of
      [components/MDCRenderer.tsx].

    JavaScript numbers that hold indices and lengths are integers here ([Z]).
    The value of [Math.random()] is a rational ([Q]) and the product
    [Math.random() * 3] is rounded to the nearest binary64 number
    ([round64]), as the multiplication of the source does; [progress] is
    kept as an exact rational. Strings are sequences of code units. A JSX
    element is recorded as the element object that it creates: its type,
    its key, its props and its children; for an element with a spread,
    the key and the children follow the rules of element creation (a
    [key] entry of the spread becomes the key and is no prop, the
    children replace a [children] entry). The component registry is an
    object literal, so a lookup in it follows the prototype chain. *)

From Stdlib Require Import ZArith QArith Qround Qpower Lqa String Ascii List Lia.
From stdpp Require Import gmap strings list pretty.
Import ListNotations.

(** ** The streaming hook *)

Module RevealEngine.

Local Open Scope Z_scope.

(** The cells of one [useStreamingText] instance together with the timers of
    the host: [timers] lists the interval handles that are still scheduled,
    [nextTimer] is the handle the next [setInterval] returns (handles are
    positive, hence truthy in [if (intervalRef.current)]). State updates
    are committed before the next operation or tick runs, so every callback
    reads the current cells. *)
Record Hook := mkHook {
  streamedText : string;
  isStreaming : bool;
  isPaused : bool;
  indexRef : Z;
  intervalRef : option nat;
  timers : list nat;
  nextTimer : nat
}.

Definition setStreamedText (s : string) (e : Hook) : Hook :=
  mkHook s (isStreaming e) (isPaused e) (indexRef e) (intervalRef e)
         (timers e) (nextTimer e).

Definition setIsStreaming (b : bool) (e : Hook) : Hook :=
  mkHook (streamedText e) b (isPaused e) (indexRef e) (intervalRef e)
         (timers e) (nextTimer e).

Definition setIsPaused (b : bool) (e : Hook) : Hook :=
  mkHook (streamedText e) (isStreaming e) b (indexRef e) (intervalRef e)
         (timers e) (nextTimer e).

Definition setIndexRef (i : Z) (e : Hook) : Hook :=
  mkHook (streamedText e) (isStreaming e) (isPaused e) i (intervalRef e)
         (timers e) (nextTimer e).

(** [clearInterval(h)]: the handle is no longer scheduled. *)
Definition clearInterval (h : nat) (e : Hook) : Hook :=
  mkHook (streamedText e) (isStreaming e) (isPaused e) (indexRef e)
         (intervalRef e) (List.filter (fun t => negb (Nat.eqb t h)) (timers e))
         (nextTimer e).

(** [intervalRef.current = v] *)
Definition setIntervalRef (v : option nat) (e : Hook) : Hook :=
  mkHook (streamedText e) (isStreaming e) (isPaused e) (indexRef e) v
         (timers e) (nextTimer e).

(** [intervalRef.current = setInterval(callback, speed)]: a fresh handle is
    scheduled and stored in the ref. *)
Definition setInterval (e : Hook) : Hook :=
  mkHook (streamedText e) (isStreaming e) (isPaused e) (indexRef e)
         (Some (nextTimer e)) (nextTimer e :: timers e) (S (nextTimer e)).

(** [if (intervalRef.current) { clearInterval(intervalRef.current);
    intervalRef.current = null }] *)
Definition clearCurrent (e : Hook) : Hook :=
  match intervalRef e with
  | Some h => setIntervalRef None (clearInterval h e)
  | None => e
  end.

(** [String.prototype.slice(b, e)] on a string of code units. *)
Definition slice (s : string) (b e : Z) : string :=
  let n := Z.of_nat (String.length s) in
  let from := if b <? 0 then Z.max (n + b) 0 else Z.min b n in
  let to := if e <? 0 then Z.max (n + e) 0 else Z.min e n in
  substring (Z.to_nat from) (Z.to_nat (Z.max (to - from) 0)) s.

(** [2^e], also for negative [e]. *)
Definition pow2 (e : Z) : Q := (2 ^ e)%Q.

(** The exponent [e] with [2^e <= x < 2^(e+1)], for [0 < x]. *)
Definition binade (x : Q) : Z :=
  let e0 := Z.log2 (Qnum x) - Z.log2 (Zpos (Qden x)) in
  if Qle_bool (pow2 e0) x then e0 else e0 - 1.

(** The integer nearest to [q], the even one of two that are equally
    near. *)
Definition nearestEven (q : Q) : Z :=
  let f := Qfloor q in
  match (q - inject_Z f ?= 1 # 2)%Q with
  | Lt => f
  | Gt => f + 1
  | Eq => if Z.even f then f else f + 1
  end.

(** The binary64 number nearest to the real [x] (round to nearest, ties to
    even): 53 significant bits, and multiples of [2^-1074] below the normal
    range. Results beyond the largest binary64 number do not occur in this
    program. *)
Definition round64 (x : Q) : Q :=
  match Qnum x with
  | Z0 => 0%Q
  | Zpos _ =>
      let u := pow2 (Z.max (binade x - 52) (-1074)) in
      (inject_Z (nearestEven (x / u)) * u)%Q
  | Zneg _ =>
      let u := pow2 (Z.max (binade (- x) - 52) (-1074)) in
      (- (inject_Z (nearestEven (- x / u)) * u))%Q
  end.

(** [Math.floor(Math.random() * 3) + 1], for the value [r] that
    [Math.random()] returned: the product is a binary64 product, the floor
    and the sum are exact. *)
Definition chunkSize (r : Q) : Z := Qfloor (round64 (r * 3)) + 1.

(** What [Math.random()] can return: a binary64 number in [0, 1), so a
    number from 0 to [1 - 2^-53], the largest binary64 number below 1.
    The facts below need no more than this range. *)
Definition isRandom (r : Q) : Prop :=
  (0 <= r)%Q /\ (r <= 1 - pow2 (-53))%Q.

(** The initial render: [useState('')], [useState(false)], [useRef(0)],
    [useRef(null)]; no timer is scheduled. *)
Definition init : Hook := mkHook "" false false 0 None [] 1.

Section Hook.

Variable fullText : string.

(** [fullText.length] *)
Definition len : Z := Z.of_nat (String.length fullText).

Definition stop (e : Hook) : Hook :=
  setIsPaused false (setIsStreaming false (clearCurrent e)).

(** The callback given to [setInterval] in [start] and, with the same body,
    in [resume]; [r] is the value of [Math.random()], read only in the first
    branch. *)
Definition intervalCallback (r : Q) (e : Hook) : Hook :=
  if indexRef e <? len then
    let chunk := chunkSize r in
    let nextIndex := Z.min (indexRef e + chunk) len in
    setIndexRef nextIndex (setStreamedText (slice fullText 0 nextIndex) e)
  else stop e.

Definition start (e : Hook) : Hook :=
  setInterval
    (setIsPaused false
       (setIsStreaming true (setIndexRef 0 (setStreamedText "" (stop e))))).

Definition pause (e : Hook) : Hook :=
  setIsPaused true (clearCurrent e).

Definition resume (e : Hook) : Hook :=
  if negb (isPaused e) then e
  else setInterval (setIsPaused false e).

Definition reset (e : Hook) : Hook :=
  setIndexRef 0 (setStreamedText "" (stop e)).

Definition complete (e : Hook) : Hook :=
  setIndexRef len (setStreamedText fullText (stop e)).

(** [const progress = fullText.length > 0
      ? (indexRef.current / fullText.length) * 100 : 0] *)
Definition progress (e : Hook) : Q :=
  if 0 <? len then (inject_Z (indexRef e) / inject_Z len * 100)%Q else 0%Q.

(** What can happen to the hook: a call of one of the returned operations,
    or the host firing the interval with handle [h] (a cleared interval
    never fires), [Math.random()] returning [r] if the callback asks. *)
Inductive Op :=
| Start | Pause | Resume | Stop | Reset | Complete
| Tick (h : nat) (r : Q).

Definition fires (h : nat) (e : Hook) : bool :=
  existsb (Nat.eqb h) (timers e).

Definition step (e : Hook) (o : Op) : Hook :=
  match o with
  | Start => start e
  | Pause => pause e
  | Resume => resume e
  | Stop => stop e
  | Reset => reset e
  | Complete => complete e
  | Tick h r => if fires h e then intervalCallback r e else e
  end.

Definition run (ops : list Op) : Hook := fold_left step ops init.

Definition validOp (o : Op) : Prop :=
  match o with
  | Tick _ r => isRandom r
  | _ => True
  end.

(** The engine states as the interface of [App] tells them apart: the Pause
    button is shown when [isStreaming && !isPaused], the Resume button when
    [isPaused], the Start button when [!isStreaming && !isPaused]. With both
    flags down, only the revealed length tells a finished reveal from one
    that has not begun. *)
Definition Streaming (e : Hook) : Prop :=
  isStreaming e = true /\ isPaused e = false.

Definition Paused (e : Hook) : Prop := isPaused e = true.

Definition Idle (e : Hook) : Prop :=
  isStreaming e = false /\ isPaused e = false /\ indexRef e = 0.

Definition Completed (e : Hook) : Prop :=
  isStreaming e = false /\ isPaused e = false /\ indexRef e = len.

(** States that a sequence of operations and interval firings can reach
    from the initial render. *)
Inductive Reachable : Hook -> Prop :=
| reach_init : Reachable init
| reach_step e o : Reachable e -> validOp o -> Reachable (step e o).

(** What every reachable state satisfies. *)
Record Inv (e : Hook) : Prop := mkInv {
  inv_timers :
    timers e = match intervalRef e with Some h => [h] | None => [] end;
  inv_paused : isPaused e = true -> intervalRef e = None;
  inv_streaming :
    isStreaming e = true -> isPaused e = false -> intervalRef e <> None;
  inv_range : 0 <= indexRef e <= len;
  inv_text : streamedText e = slice fullText 0 (indexRef e)
}.

End Hook.

(** *** Strings and the random chunk *)

Lemma substring_all (s : string) : substring 0 (String.length s) s = s.
Proof. induction s as [|c s IH]; simpl; [reflexivity | now rewrite IH]. Qed.

Lemma substring_0_0 (s : string) : substring 0 0 s = EmptyString.
Proof. destruct s; reflexivity. Qed.

Lemma length_substring_0 (s : string) (n : nat) :
  (n <= String.length s)%nat -> String.length (substring 0 n s) = n.
Proof.
  revert n; induction s as [|c s IH]; intros [|n] H; simpl in *;
    try reflexivity; try lia.
  rewrite IH; [reflexivity | lia].
Qed.

Lemma slice_0_spec (s : string) (n : Z) :
  0 <= n <= len s -> slice s 0 n = substring 0 (Z.to_nat n) s.
Proof.
  intros [H0 H1]. unfold slice. fold (len s).
  destruct (Z.ltb_spec n 0) as [H|H]; [lia|].
  change (0 <? 0) with false. cbv iota zeta.
  replace (Z.min 0 (len s)) with 0 by lia.
  replace (Z.max (Z.min n (len s) - 0) 0) with n by lia.
  reflexivity.
Qed.

Lemma slice_0_0 (s : string) : slice s 0 0 = EmptyString.
Proof.
  rewrite slice_0_spec by (unfold len; lia). apply substring_0_0.
Qed.

Lemma slice_0_len (s : string) : slice s 0 (len s) = s.
Proof.
  rewrite slice_0_spec by (unfold len; lia).
  unfold len. rewrite Nat2Z.id. apply substring_all.
Qed.

Lemma length_slice_0 (s : string) (n : Z) :
  0 <= n <= len s -> Z.of_nat (String.length (slice s 0 n)) = n.
Proof.
  intros H. rewrite slice_0_spec by exact H.
  rewrite length_substring_0; unfold len in H; lia.
Qed.

Lemma Qfloor_ge (k : Z) (x : Q) : k <= Qfloor x <-> (inject_Z k <= x)%Q.
Proof.
  split; intros H.
  - eapply Qle_trans; [|apply Qfloor_le]. now rewrite <- Zle_Qle.
  - rewrite <- (Qfloor_Z k). now apply Qfloor_resp_le.
Qed.

Lemma Qfloor_lt (k : Z) (x : Q) : Qfloor x < k <-> (x < inject_Z k)%Q.
Proof.
  split; intros H.
  - apply Qnot_le_lt. intros Hk. apply Qfloor_ge in Hk. lia.
  - apply Z.nle_gt. intros Hk. apply Qfloor_ge in Hk.
    now apply Qle_not_lt in Hk.
Qed.

(** *** Binary64 rounding *)

Lemma pow2_pos e : (0 < pow2 e)%Q.
Proof. apply Qpower_0_lt. reflexivity. Qed.

Lemma pow2_add a b : (pow2 (a + b) == pow2 a * pow2 b)%Q.
Proof. apply Qpower_plus. discriminate. Qed.

Lemma pow2_le a b : a <= b -> (pow2 a <= pow2 b)%Q.
Proof. intros H. apply Qpower_le_compat_l; [exact H | discriminate]. Qed.

Lemma pow2_Z n : 0 <= n -> (pow2 n == inject_Z (2 ^ n))%Q.
Proof. intros H. unfold pow2. now rewrite Zpower_Qpower. Qed.

Lemma pow2_succ e : (pow2 (e + 1) == 2 * pow2 e)%Q.
Proof. rewrite pow2_add. change (pow2 1) with 2%Q. ring. Qed.

Lemma frac_lt (n A B : Z) (d : positive) :
  0 < B -> n * B < A * Zpos d -> (n # d < inject_Z A / inject_Z B)%Q.
Proof.
  intros HB H. destruct B as [|B|B]; try lia.
  unfold Qlt, Qdiv, Qmult, Qinv, inject_Z. simpl. lia.
Qed.

Lemma frac_ge (n A B : Z) (d : positive) :
  0 < B -> A * Zpos d <= n * B -> (inject_Z A / inject_Z B <= n # d)%Q.
Proof.
  intros HB H. destruct B as [|B|B]; try lia.
  unfold Qle, Qdiv, Qmult, Qinv, inject_Z. simpl. lia.
Qed.

Lemma pow2_sub a b : 0 <= a -> 0 <= b ->
  (pow2 (a - b) == inject_Z (2 ^ a) / inject_Z (2 ^ b))%Q.
Proof.
  intros Ha Hb. unfold pow2. rewrite Qpower_minus by discriminate.
  now rewrite !Zpower_Qpower.
Qed.

Lemma binade_spec (x : Q) :
  (0 < x)%Q -> (pow2 (binade x) <= x)%Q /\ (x < pow2 (binade x + 1))%Q.
Proof.
  intros Hx. destruct x as [n d]. unfold binade. simpl Qnum. simpl Qden.
  assert (Hn : 0 < n) by (unfold Qlt in Hx; simpl in Hx; lia).
  set (a := Z.log2 n). set (b := Z.log2 (Zpos d)).
  assert (Ha : 0 <= a) by apply Z.log2_nonneg.
  assert (Hb : 0 <= b) by apply Z.log2_nonneg.
  destruct (Z.log2_spec n Hn) as [Ha1 Ha2]. fold a in Ha1, Ha2.
  destruct (Z.log2_spec (Zpos d) eq_refl) as [Hb1 Hb2]. fold b in Hb1, Hb2.
  assert (Hpb : 0 < 2 ^ b) by (apply Z.pow_pos_nonneg; lia).
  assert (Hpa : 0 < 2 ^ a) by (apply Z.pow_pos_nonneg; lia).
  destruct (Qle_bool (pow2 (a - b)) (n # d)) eqn:E.
  - apply Qle_bool_iff in E. split; [exact E|].
    replace (a - b + 1) with ((a + 1) - b) by lia.
    rewrite pow2_sub by lia. apply frac_lt; [exact Hpb|].
    replace (a + 1) with (Z.succ a) by lia.
    apply Z.le_lt_trans with (n * Zpos d).
    + apply Z.mul_le_mono_nonneg_l; lia.
    + apply Z.mul_lt_mono_pos_r; lia.
  - assert (E' : (n # d < pow2 (a - b))%Q).
    { apply Qnot_le_lt. intros H. apply Qle_bool_iff in H. congruence. }
    replace (a - b - 1 + 1) with (a - b) by lia. split; [|exact E'].
    replace (a - b - 1) with (a - (b + 1)) by lia.
    rewrite pow2_sub by lia. apply frac_ge.
    + apply Z.pow_pos_nonneg; lia.
    + replace (b + 1) with (Z.succ b) by lia.
      apply Z.le_trans with (n * Zpos d).
      * apply Z.mul_le_mono_nonneg_r; lia.
      * apply Z.mul_le_mono_nonneg_l; lia.
Qed.

Lemma binade_unique (x : Q) (e : Z) :
  (pow2 e <= x)%Q -> (x < pow2 (e + 1))%Q -> binade x = e.
Proof.
  intros H1 H2.
  assert (Hx : (0 < x)%Q) by (eapply Qlt_le_trans; [apply pow2_pos | exact H1]).
  destruct (binade_spec x Hx) as [B1 B2].
  destruct (Z.lt_trichotomy (binade x) e) as [H | [H | H]]; [|exact H|].
  - exfalso. assert (pow2 (binade x + 1) <= pow2 e)%Q by (apply pow2_le; lia).
    lra.
  - exfalso. assert (pow2 (e + 1) <= pow2 (binade x))%Q by (apply pow2_le; lia).
    lra.
Qed.

Lemma inject_Z_minus (a b : Z) : inject_Z (a - b) = (inject_Z a - inject_Z b)%Q.
Proof. unfold Z.sub. now rewrite inject_Z_plus, inject_Z_opp. Qed.

Lemma inject_Z_pred (a : Z) : inject_Z (a - 1) = (inject_Z a - 1)%Q.
Proof. apply inject_Z_minus. Qed.

Lemma Qfloor_bounds (q : Q) :
  (inject_Z (Qfloor q) <= q)%Q /\ (q < inject_Z (Qfloor q) + 1)%Q.
Proof.
  split; [apply Qfloor_le|].
  change 1%Q with (inject_Z 1). rewrite <- inject_Z_plus. apply Qlt_floor.
Qed.

Lemma inject_lt_succ (a b : Z) :
  (inject_Z a < inject_Z b + 1)%Q -> a <= b.
Proof.
  intros H. change 1%Q with (inject_Z 1) in H.
  rewrite <- inject_Z_plus in H. rewrite <- Zlt_Qlt in H. lia.
Qed.

Lemma nearestEven_cases (q : Q) :
  let f := Qfloor q in
  (nearestEven q = f /\ (q - inject_Z f <= 1 # 2)%Q /\
   ((q - inject_Z f == 1 # 2)%Q -> Z.even f = true)) \/
  (nearestEven q = f + 1 /\ (1 # 2 <= q - inject_Z f)%Q /\
   ((q - inject_Z f == 1 # 2)%Q -> Z.even f = false)).
Proof.
  intros f. unfold nearestEven. fold f.
  destruct (q - inject_Z f ?= 1 # 2)%Q eqn:E.
  - apply Qeq_alt in E. destruct (Z.even f) eqn:Ev.
    + left. repeat split; auto. rewrite E. apply Qle_refl.
    + right. repeat split; auto. rewrite E. apply Qle_refl.
  - apply Qlt_alt in E. left. repeat split.
    + now apply Qlt_le_weak.
    + intros H. rewrite H in E. discriminate E.
  - apply Qgt_alt in E. right. repeat split.
    + now apply Qlt_le_weak.
    + intros H. rewrite H in E. discriminate E.
Qed.

Lemma nearestEven_le (q : Q) (M : Z) :
  (q <= inject_Z M)%Q -> nearestEven q <= M.
Proof.
  intros H. destruct (Qfloor_bounds q) as [F1 F2].
  destruct (nearestEven_cases q) as [(-> & _) | (-> & H1 & _)].
  - rewrite Zle_Qle. lra.
  - assert (Qfloor q < M); [|lia]. rewrite Zlt_Qlt. lra.
Qed.

Lemma nearestEven_ge (q : Q) (M : Z) :
  (inject_Z M <= q)%Q -> M <= nearestEven q.
Proof.
  intros H. destruct (Qfloor_bounds q) as [F1 F2].
  assert (M <= Qfloor q) by (apply inject_lt_succ; lra).
  destruct (nearestEven_cases q) as [(-> & _) | (-> & _)]; lia.
Qed.

Lemma nearestEven_even (q : Q) (M : Z) :
  Z.even M = true ->
  (M <= nearestEven q <-> (inject_Z M - (1 # 2) <= q)%Q).
Proof.
  intros Hev. destruct (Qfloor_bounds q) as [F1 F2]. split.
  - intros H. apply Qnot_lt_le. intros Hq.
    assert (Hf : Qfloor q <= M - 1).
    { assert (Qfloor q < M); [|lia]. rewrite Zlt_Qlt. lra. }
    destruct (nearestEven_cases q) as [(E & _) | (E & H1 & _)];
      rewrite E in H; [lia|].
    assert (Qfloor q = M - 1) by lia.
    rewrite H0 in H1. rewrite inject_Z_pred in H1. lra.
  - intros H. destruct (Qlt_le_dec q (inject_Z M)) as [Hq | Hq];
      [|now apply nearestEven_ge].
    assert (Hf : Qfloor q = M - 1).
    { assert (Qfloor q < M) by (rewrite Zlt_Qlt; lra).
      assert (M - 1 <= Qfloor q); [|lia].
      apply inject_lt_succ. rewrite inject_Z_pred. lra. }
    destruct (nearestEven_cases q) as [(E & H1 & H2) | (E & _)];
      rewrite E; [|lia].
    exfalso. rewrite Hf in *. rewrite inject_Z_pred in *.
    assert (Heq : (q - (inject_Z M - 1) == 1 # 2)%Q) by lra.
    specialize (H2 Heq). rewrite Z.even_sub in H2. rewrite Hev in H2.
    discriminate.
Qed.

Lemma pow2_split (b : Z) : (pow2 b == inject_Z (2 ^ 52) * pow2 (b - 52))%Q.
Proof.
  rewrite <- (pow2_Z 52) by lia. rewrite <- pow2_add. now replace (52 + (b - 52)) with b by lia.
Qed.

Lemma round64_pos (x : Q) :
  (0 < x)%Q ->
  round64 x =
  (inject_Z (nearestEven (x / pow2 (Z.max (binade x - 52) (-1074)))) *
   pow2 (Z.max (binade x - 52) (-1074)))%Q.
Proof.
  intros Hx. destruct x as [[|p|p] d]; try reflexivity;
    unfold Qlt in Hx; simpl in Hx; lia.
Qed.

Lemma round64_0 (x : Q) : (x == 0)%Q -> round64 x = 0%Q.
Proof.
  intros Hx. destruct x as [[|p|p] d]; try reflexivity;
    unfold Qeq in Hx; simpl in Hx; lia.
Qed.

Lemma scaled (x u : Q) : (0 < u)%Q -> (x == x / u * u)%Q.
Proof. intros Hu. field. lra. Qed.

(** The binary64 neighbours [T - 1] and [T] times [2^(b-52)], with [T]
    even: a real rounds to at least the upper one exactly from their
    midpoint on. *)
Lemma round64_threshold (b T : Z) (x : Q) :
  -1022 <= b -> Z.even T = true -> 2 ^ 52 < T <= 2 ^ 53 -> (0 <= x)%Q ->
  (inject_Z T * pow2 (b - 52) <= round64 x)%Q <->
  ((inject_Z T - (1 # 2)) * pow2 (b - 52) <= x)%Q.
Proof.
  intros Hb Hev [HT1 HT2] Hx.
  pose proof (pow2_pos (b - 52)) as Hu. set (u := pow2 (b - 52)) in *.
  pose proof (pow2_split b) as Hpb. fold u in Hpb.
  assert (Hpb1 : (pow2 (b + 1) == inject_Z (2 ^ 53) * u)%Q).
  { rewrite pow2_succ, Hpb. change (2 ^ 53) with (2 * 2 ^ 52).
    rewrite inject_Z_mult. ring. }
  assert (HT1' : (inject_Z (2 ^ 52) + 1 <= inject_Z T)%Q).
  { change 1%Q with (inject_Z 1). rewrite <- inject_Z_plus, <- Zle_Qle. lia. }
  assert (HT2' : (inject_Z T <= inject_Z (2 ^ 53))%Q) by (rewrite <- Zle_Qle; lia).
  destruct (Qeq_dec x 0) as [H0 | H0].
  { rewrite (round64_0 x H0). rewrite H0. split; intros H; exfalso.
    - assert (0 < inject_Z T * u)%Q; [|lra].
      apply Qmult_lt_0_compat; [|exact Hu].
      apply Qlt_le_trans with (inject_Z (2 ^ 52) + 1)%Q; [reflexivity | exact HT1'].
    - assert (0 < (inject_Z T - (1 # 2)) * u)%Q; [|lra].
      apply Qmult_lt_0_compat; [|exact Hu].
      apply Qlt_le_trans with (inject_Z (2 ^ 52) + 1 - (1 # 2))%Q; [reflexivity | lra]. }
  assert (Hpos : (0 < x)%Q).
  { destruct (Qlt_le_dec 0 x) as [H | H]; [exact H|]. exfalso. apply H0. lra. }
  rewrite (round64_pos x Hpos).
  destruct (binade_spec x Hpos) as [B1 B2].
  set (b' := binade x) in *.
  set (k := Z.max (b' - 52) (-1074)).
  pose proof (pow2_pos k) as Hu'. set (u' := pow2 k) in *.
  pose proof (scaled x u' Hu') as Hxq. set (q := (x / u')%Q) in *.
  destruct (Z.lt_trichotomy b' b) as [Hlt | [Heq | Hgt]].
  - (* below the binade: both sides fail *)
    assert (Hxb : (x < pow2 b)%Q).
    { apply Qlt_le_trans with (pow2 (b' + 1)); [exact B2 | apply pow2_le; lia]. }
    assert (Hk : 0 <= b - k) by lia.
    assert (HM : (pow2 b == inject_Z (2 ^ (b - k)) * u')%Q).
    { rewrite <- pow2_Z by lia. unfold u'. rewrite <- pow2_add.
      now replace (b - k + k) with b by lia. }
    assert (HN : nearestEven q <= 2 ^ (b - k)).
    { apply nearestEven_le. apply Qlt_le_weak.
      apply (Qmult_lt_r _ _ u' Hu'). rewrite <- Hxq, <- HM. exact Hxb. }
    assert (HNu : (inject_Z (nearestEven q) * u' <= pow2 b)%Q).
    { rewrite HM. apply Qmult_le_compat_r; [|lra]. now rewrite <- Zle_Qle. }
    assert (Hlow : (pow2 b < (inject_Z T - (1 # 2)) * u)%Q).
    { rewrite Hpb. apply Qmult_lt_compat_r; [exact Hu | lra]. }
    assert (Hlow' : ((inject_Z T - (1 # 2)) * u < inject_Z T * u)%Q).
    { apply Qmult_lt_compat_r; [exact Hu | lra]. }
    split; intros H; exfalso; lra.
  - (* in the binade *)
    assert (Hk : k = b - 52) by lia.
    assert (Hu_eq : u' = u) by (unfold u', u; now rewrite Hk).
    rewrite Hu_eq in *.
    rewrite (Qmult_le_r _ _ u Hu), <- Zle_Qle, (nearestEven_even q T Hev).
    rewrite <- (Qmult_le_r _ _ u Hu), <- Hxq. reflexivity.
  - (* above the binade: both sides hold *)
    assert (Hxb : (pow2 (b + 1) <= x)%Q).
    { apply Qle_trans with (pow2 b'); [apply pow2_le; lia | exact B1]. }
    assert (Hk : k = b' - 52) by lia.
    assert (HM : (pow2 b' == inject_Z (2 ^ 52) * u')%Q).
    { unfold u'. rewrite Hk. apply pow2_split. }
    assert (HN : 2 ^ 52 <= nearestEven q).
    { apply nearestEven_ge. apply (Qmult_le_r _ _ u' Hu').
      rewrite <- Hxq, <- HM. exact B1. }
    assert (HNu : (pow2 b' <= inject_Z (nearestEven q) * u')%Q).
    { rewrite HM. apply Qmult_le_compat_r; [|lra]. now rewrite <- Zle_Qle. }
    assert (Hbb : (pow2 (b + 1) <= pow2 b')%Q) by (apply pow2_le; lia).
    assert (Hv : (inject_Z T * u <= pow2 (b + 1))%Q).
    { rewrite Hpb1. apply Qmult_le_compat_r; lra. }
    assert (Hv' : ((inject_Z T - (1 # 2)) * u <= inject_Z T * u)%Q).
    { apply Qmult_le_compat_r; lra. }
    split; intros _; lra.
Qed.

Lemma round64_nonneg (x : Q) : (0 <= x)%Q -> (0 <= round64 x)%Q.
Proof.
  intros Hx. destruct (Qeq_dec x 0) as [H0 | H0].
  - rewrite (round64_0 x H0). apply Qle_refl.
  - assert (Hpos : (0 < x)%Q).
    { destruct (Qlt_le_dec 0 x) as [H | H]; [exact H|]. exfalso. apply H0. lra. }
    rewrite (round64_pos x Hpos).
    set (u := pow2 _). pose proof (pow2_pos (Z.max (binade x - 52) (-1074))) as Hu.
    fold u in Hu. apply Qmult_le_0_compat; [|lra].
    change 0%Q with (inject_Z 0). rewrite <- Zle_Qle.
    apply nearestEven_ge. apply Qle_shift_div_l; [exact Hu|].
    change (inject_Z 0) with 0%Q. lra.
Qed.

(** Every binary64 number from 0 to below 1 is in the range [isRandom]:
    the largest of them is [1 - 2^-53]. *)
Lemma binary64_isRandom (r : Q) :
  (0 <= r)%Q -> (r < 1)%Q -> (round64 r == r)%Q -> isRandom r.
Proof.
  intros H0 H1 Hr. split; [exact H0|].
  assert (Hp : (pow2 (-53) <= 1 # 2)%Q) by (vm_compute; discriminate).
  destruct (Qlt_le_dec 0 r) as [Hpos|Hle]; [|lra].
  destruct (binade_spec r Hpos) as [Hb1 Hb2].
  destruct (Z_lt_le_dec (binade r) (-1)) as [Hlt|Hge].
  - assert (H : (pow2 (binade r + 1) <= pow2 (-1))%Q) by (apply pow2_le; lia).
    change (pow2 (-1)) with (1 # 2)%Q in H. lra.
  - assert (Hb : binade r <= -1).
    { destruct (Z_lt_le_dec (binade r) 0) as [|Hb]; [lia|].
      apply pow2_le in Hb. change (pow2 0) with 1%Q in Hb. lra. }
    assert (E : binade r = -1) by lia.
    rewrite (round64_pos r Hpos), E in Hr.
    change (Z.max (-1 - 52) (-1074)) with (-53) in Hr.
    set (n := nearestEven (r / pow2 (-53))) in Hr.
    assert (E1 : (inject_Z (2 ^ 53) * pow2 (-53) == 1)%Q)
      by (vm_compute; reflexivity).
    assert (E2 : (inject_Z (2 ^ 53 - 1) * pow2 (-53) == 1 - pow2 (-53))%Q)
      by (vm_compute; reflexivity).
    assert (Hn : n < 2 ^ 53).
    { rewrite Zlt_Qlt. apply (Qmult_lt_r _ _ (pow2 (-53)) (pow2_pos _)).
      rewrite Hr, E1. exact H1. }
    rewrite <- Hr, <- E2. apply Qmult_le_compat_r; [|apply Qlt_le_weak, pow2_pos].
    rewrite <- Zle_Qle. lia.
Qed.

(** The double nearest to two thirds, [0.6666666666666666], is a possible
    value of [Math.random()]; it is below two thirds, but its binary64
    product with 3 is 2, so the chunk is 3. The double before it gives 2. *)
Example chunkSize_below_two_thirds :
  let r := (6004799503160661 # 9007199254740992)%Q in
  let r' := (6004799503160660 # 9007199254740992)%Q in
  (round64 r == r)%Q /\ (r < 2 # 3)%Q /\ (round64 (r * 3) == 2)%Q /\
  chunkSize r = 3 /\ chunkSize r' = 2.
Proof. repeat split; vm_compute; reflexivity. Qed.

(** From which product on the chunk is at least 2, 3, 4: the midpoints
    below 1, 2 and 3, which round up to the even neighbour. *)
Lemma chunkSize_ge2 (r : Q) :
  (0 <= r)%Q -> (2 <= chunkSize r <-> (1 - pow2 (-54) <= r * 3)%Q).
Proof.
  intros Hr. unfold chunkSize.
  assert (Hx : (0 <= r * 3)%Q) by lra.
  pose proof (round64_threshold (-1) (2 ^ 53) (r * 3)
                ltac:(lia) eq_refl ltac:(lia) Hx) as T.
  assert (E1 : (inject_Z (2 ^ 53) * pow2 (-1 - 52) == inject_Z 1)%Q)
    by (vm_compute; reflexivity).
  assert (E2 : ((inject_Z (2 ^ 53) - (1 # 2)) * pow2 (-1 - 52)
                == 1 - pow2 (-54))%Q) by (vm_compute; reflexivity).
  rewrite E1, E2 in T. rewrite <- T, <- Qfloor_ge. lia.
Qed.

Lemma chunkSize_ge3 (r : Q) :
  (0 <= r)%Q -> (3 <= chunkSize r <-> (2 - pow2 (-53) <= r * 3)%Q).
Proof.
  intros Hr. unfold chunkSize.
  assert (Hx : (0 <= r * 3)%Q) by lra.
  pose proof (round64_threshold 0 (2 ^ 53) (r * 3)
                ltac:(lia) eq_refl ltac:(lia) Hx) as T.
  assert (E1 : (inject_Z (2 ^ 53) * pow2 (0 - 52) == inject_Z 2)%Q)
    by (vm_compute; reflexivity).
  assert (E2 : ((inject_Z (2 ^ 53) - (1 # 2)) * pow2 (0 - 52)
                == 2 - pow2 (-53))%Q) by (vm_compute; reflexivity).
  rewrite E1, E2 in T. rewrite <- T, <- Qfloor_ge. lia.
Qed.

Lemma chunkSize_ge4 (r : Q) :
  (0 <= r)%Q -> (4 <= chunkSize r <-> (3 - pow2 (-52) <= r * 3)%Q).
Proof.
  intros Hr. unfold chunkSize.
  assert (Hx : (0 <= r * 3)%Q) by lra.
  pose proof (round64_threshold 1 (3 * 2 ^ 51) (r * 3)
                ltac:(lia) eq_refl ltac:(lia) Hx) as T.
  assert (E1 : (inject_Z (3 * 2 ^ 51) * pow2 (1 - 52) == inject_Z 3)%Q)
    by (vm_compute; reflexivity).
  assert (E2 : ((inject_Z (3 * 2 ^ 51) - (1 # 2)) * pow2 (1 - 52)
                == 3 - pow2 (-52))%Q) by (vm_compute; reflexivity).
  rewrite E1, E2 in T. rewrite <- T, <- Qfloor_ge. lia.
Qed.

Lemma chunkSize_range (r : Q) : isRandom r -> 1 <= chunkSize r <= 3.
Proof.
  intros [H0 H1]. split.
  - unfold chunkSize.
    assert (0 <= Qfloor (round64 (r * 3))); [|lia].
    apply Qfloor_ge. apply round64_nonneg. lra.
  - assert (~ 4 <= chunkSize r); [|lia].
    rewrite (chunkSize_ge4 r H0).
    pose proof (pow2_pos (-53)) as Hp.
    pose proof (pow2_succ (-53)) as Hs. change (-53 + 1) with (-52) in Hs.
    lra.
Qed.

(** The chunk is 1, 2 or 3, and each value is taken on one stretch of the
    range of [Math.random()]; the stretches end where the binary64 product
    reaches 1 and 2, just below a third and two thirds. *)
Lemma chunkSize_thirds (r : Q) :
  isRandom r ->
  (chunkSize r = 1 <-> (r * 3 < 1 - pow2 (-54))%Q) /\
  (chunkSize r = 2 <->
     (1 - pow2 (-54) <= r * 3)%Q /\ (r * 3 < 2 - pow2 (-53))%Q) /\
  (chunkSize r = 3 <-> (2 - pow2 (-53) <= r * 3)%Q).
Proof.
  intros Hr. pose proof (chunkSize_range r Hr) as B. destruct Hr as [H0 _].
  pose proof (chunkSize_ge2 r H0) as G2. pose proof (chunkSize_ge3 r H0) as G3.
  repeat split.
  - intros E. apply Qnot_le_lt. intros H. apply G2 in H. lia.
  - intros H. assert (~ 2 <= chunkSize r); [|lia].
    intros G. apply G2 in G. lra.
  - apply G2. lia.
  - apply Qnot_le_lt. intros H1. apply G3 in H1. lia.
  - intros [Ha Hb]. apply G2 in Ha. assert (~ 3 <= chunkSize r); [|lia].
    intros G. apply G3 in G. lra.
  - intros E. apply G3. lia.
  - intros H. apply G3 in H. lia.
Qed.

(** *** The invariant of the hook *)

Section HookFacts.

Variable fullText : string.

Local Abbreviation len := (len fullText).
Local Abbreviation step := (step fullText).
Local Abbreviation Reachable := (Reachable fullText).
Local Abbreviation Inv := (Inv fullText).

Lemma init_Inv : Inv init.
Proof.
  constructor; simpl; try reflexivity; try discriminate.
  - unfold RevealEngine.len. lia.
  - now rewrite slice_0_0.
Qed.

(** After [clearCurrent] no interval is scheduled and the ref is null. *)
Lemma clearCurrent_spec (e : Hook) :
  timers e = match intervalRef e with Some h => [h] | None => [] end ->
  clearCurrent e =
  mkHook (streamedText e) (isStreaming e) (isPaused e) (indexRef e) None []
         (nextTimer e).
Proof.
  intros Ht. unfold clearCurrent. destruct e as [t s p i [h|] ts n];
    simpl in *; subst ts.
  - unfold setIntervalRef, clearInterval. simpl. now rewrite Nat.eqb_refl.
  - reflexivity.
Qed.

Lemma intervalCallback_range (r : Q) (e : Hook) :
  isRandom r -> 0 <= indexRef e <= len ->
  indexRef e <= indexRef (intervalCallback fullText r e) <= len.
Proof.
  intros Hr Hi. pose proof (chunkSize_range r Hr).
  unfold intervalCallback. destruct (Z.ltb_spec (indexRef e) len); simpl.
  - lia.
  - unfold stop, clearCurrent. destruct (intervalRef e); simpl; lia.
Qed.

Lemma step_Inv (e : Hook) (o : Op) : Inv e -> validOp o -> Inv (step e o).
Proof.
  intros [Ht Hp Hs Hr Hx] Hv.
  pose proof (clearCurrent_spec e Ht) as Hc.
  destruct o as [| | | | | |h r]; simpl;
    unfold start, reset, complete, pause, resume, stop;
    try rewrite Hc.
  - constructor; simpl; try easy.
    + unfold RevealEngine.len; lia.
    + now rewrite slice_0_0.
  - constructor; simpl; easy.
  - destruct (isPaused e) eqn:E; simpl.
    + constructor; simpl; try easy. now rewrite Ht, (Hp eq_refl).
    + constructor;
        [exact Ht | intros; congruence | intros; now apply Hs
        | exact Hr | exact Hx].
  - constructor; simpl; easy.
  - constructor; simpl; try easy.
    + unfold RevealEngine.len; lia.
    + now rewrite slice_0_0.
  - constructor; simpl; try easy.
    + unfold RevealEngine.len; lia.
    + now rewrite slice_0_len.
  - destruct (fires h e); [|now constructor].
    pose proof (intervalCallback_range r e Hv Hr) as Hrange.
    unfold intervalCallback in *.
    destruct (Z.ltb_spec (indexRef e) len).
    + constructor; simpl;
        [exact Ht | exact Hp | exact Hs | simpl in Hrange; lia | reflexivity].
    + unfold stop. rewrite Hc. constructor; simpl; easy.
Qed.

Lemma Reachable_Inv (e : Hook) : Reachable e -> Inv e.
Proof.
  induction 1 as [|e o _ IH Hv]; [apply init_Inv | now apply step_Inv].
Qed.

Lemma run_Reachable (ops : list Op) :
  Forall validOp ops -> Reachable (run fullText ops).
Proof.
  unfold run. generalize init (reach_init fullText).
  induction ops as [|o ops IH]; intros e He Hv; simpl; [exact He|].
  inversion Hv; subst. apply IH; [now constructor | assumption].
Qed.

(** A tick of a handle that is not scheduled changes nothing. *)
Lemma tick_not_scheduled (e : Hook) (h : nat) (r : Q) :
  timers e = [] -> step e (Tick h r) = e.
Proof. intros Ht. simpl. unfold fires. now rewrite Ht. Qed.

Lemma tick_scheduled (e : Hook) (h : nat) (r : Q) :
  timers e = [h] -> step e (Tick h r) = intervalCallback fullText r e.
Proof. intros Ht. simpl. unfold fires. rewrite Ht. simpl. now rewrite Nat.eqb_refl. Qed.

Lemma stop_spec (e : Hook) :
  Inv e ->
  stop e = mkHook (streamedText e) false false (indexRef e) None []
                  (nextTimer e).
Proof. intros I. unfold stop. now rewrite (clearCurrent_spec e (inv_timers _ _ I)). Qed.

(** C1, as the code has it: while the engine is Streaming exactly one
    interval is scheduled; when it fires below the document length the
    revealed length grows by a chunk of 1, 2 or 3 (each on one stretch of
    the range of [Math.random()], the stretches ending where the binary64
    product with 3 reaches 1 and 2), clamped to the document length, the
    revealed text is the prefix of that length, and the engine stays
    Streaming with
    the interval still scheduled, also when the clamped result is the
    document length. The tick that finds the revealed length already at the
    document length leaves it alone, cancels the interval and lowers both
    flags; after it no tick fires. *)
Theorem tick_while_streaming (e : Hook) :
  Reachable e -> Streaming e ->
  exists h, timers e = [h] /\
  forall r, isRandom r ->
    let e' := step e (Tick h r) in
    (indexRef e < len ->
       (chunkSize r = 1 \/ chunkSize r = 2 \/ chunkSize r = 3) /\
       (chunkSize r = 1 <-> (r * 3 < 1 - pow2 (-54))%Q) /\
       (chunkSize r = 2 <->
          (1 - pow2 (-54) <= r * 3)%Q /\ (r * 3 < 2 - pow2 (-53))%Q) /\
       (chunkSize r = 3 <-> (2 - pow2 (-53) <= r * 3)%Q) /\
       indexRef e' = Z.min (indexRef e + chunkSize r) len /\
       streamedText e' = slice fullText 0 (indexRef e') /\
       Z.of_nat (String.length (streamedText e')) = indexRef e' /\
       Streaming e' /\ timers e' = [h]) /\
    (len <= indexRef e ->
       indexRef e' = indexRef e /\ streamedText e' = streamedText e /\
       Completed fullText e' /\ timers e' = [] /\
       forall h' r', step e' (Tick h' r') = e').
Proof.
  intros He [Hs Hp]. pose proof (Reachable_Inv e He) as I.
  destruct (intervalRef e) as [h|] eqn:Eh.
  2:{ exfalso. now apply (inv_streaming _ _ I Hs Hp). }
  assert (Ht : timers e = [h]) by (rewrite (inv_timers _ _ I); now rewrite Eh).
  exists h. split; [exact Ht|]. intros r Hr e'. subst e'.
  rewrite (tick_scheduled e h r Ht).
  pose proof (intervalCallback_range r e Hr (inv_range _ _ I)) as Hrange.
  pose proof (chunkSize_range r Hr) as Hc.
  pose proof (chunkSize_thirds r Hr) as (T1 & T2 & T3).
  pose proof (inv_range _ _ I) as Hb.
  unfold intervalCallback in *. split; intros Hi.
  - destruct (Z.ltb_spec (indexRef e) len) as [_|]; [|lia].
    simpl in *. repeat split; try tauto; try assumption; try lia.
    apply length_slice_0. lia.
  - destruct (Z.ltb_spec (indexRef e) len) as [|_]; [lia|].
    rewrite (stop_spec e I).
    repeat split; simpl; try reflexivity; lia.
Qed.

(** C5, as the code has it: [pause()] has no guard on the state. From every
    reachable state it cancels the interval and raises [isPaused], leaving
    the revealed length, the revealed text and [isStreaming] as they were;
    no tick fires afterwards. From Streaming this is the transition to
    Paused. *)
Theorem pause_spec (e : Hook) :
  Reachable e ->
  let e' := step e Pause in
  indexRef e' = indexRef e /\ streamedText e' = streamedText e /\
  isStreaming e' = isStreaming e /\ isPaused e' = true /\
  intervalRef e' = None /\ timers e' = [] /\
  (forall h r, step e' (Tick h r) = e') /\
  (Streaming e -> Paused e').
Proof.
  intros He e'. subst e'. pose proof (Reachable_Inv e He) as I.
  simpl. unfold pause. rewrite (clearCurrent_spec e (inv_timers _ _ I)).
  simpl. repeat split.
Qed.

(** C7: after every sequence of operations and ticks the revealed length
    ([indexRef], which is also the length of [streamedText]) is between 0
    and the document length; a tick taken while Streaming never lowers it; while Paused no tick changes the state, and every operation
    that leaves the engine Paused leaves the revealed length as it was. *)
Theorem revealedLength_bounds (ops : list Op) :
  Forall validOp ops ->
  let e := run fullText ops in
  0 <= indexRef e <= len /\
  Z.of_nat (String.length (streamedText e)) = indexRef e /\
  (forall h r, isRandom r -> Streaming e ->
     indexRef e <= indexRef (step e (Tick h r))) /\
  (Paused e ->
     (forall h r, step e (Tick h r) = e) /\
     (forall o, Paused (step e o) -> indexRef (step e o) = indexRef e)).
Proof.
  intros Hv e. pose proof (Reachable_Inv e (run_Reachable ops Hv)) as I.
  split; [exact (inv_range _ _ I)|]. split.
  { rewrite (inv_text _ _ I). apply length_slice_0, (inv_range _ _ I). }
  split.
  - intros h r Hr _. simpl. destruct (fires h e); [|lia].
    apply (intervalCallback_range r e Hr (inv_range _ _ I)).
  - intros Hp.
    assert (Ht : timers e = []).
    { rewrite (inv_timers _ _ I). now rewrite (inv_paused _ _ I Hp). }
    split; [intros h r; now apply tick_not_scheduled|].
    intros o. unfold Paused in *.
    destruct o as [| | | | | |h r]; simpl;
      unfold start, reset, complete, pause, resume;
      try rewrite (stop_spec e I); simpl; try discriminate.
    + unfold clearCurrent. destruct (intervalRef e); reflexivity.
    + rewrite Hp. simpl. discriminate.
    + unfold fires. rewrite Ht. reflexivity.
Qed.

Lemma progress_full (n i : Z) :
  0 < n -> ((inject_Z i / inject_Z n * 100 == 100)%Q <-> i = n).
Proof.
  intros Hn. destruct n as [|p|p]; try lia.
  unfold Qeq, Qdiv, Qmult, Qinv, inject_Z. simpl.
  rewrite !Pos.mul_1_r. lia.
Qed.

(** C8, as the code has it: [progress] is 0 for the empty document and
    [indexRef / length * 100] otherwise; for a non-empty document it is 100
    exactly when the revealed length is the document length. That holds in
    every Complete state, and also in the Streaming (or Paused) state left by
    the tick that revealed the last characters. The value lies between 0 and
    100. *)
Theorem progress_spec (e : Hook) :
  Reachable e ->
  (len = 0 -> progress fullText e = 0%Q) /\
  (0 < len ->
     progress fullText e = (inject_Z (indexRef e) / inject_Z len * 100)%Q /\
     ((progress fullText e == 100)%Q <-> indexRef e = len) /\
     (Completed fullText e -> (progress fullText e == 100)%Q)) /\
  (0 <= progress fullText e)%Q /\ (progress fullText e <= 100)%Q.
Proof.
  intros He. pose proof (inv_range _ _ (Reachable_Inv e He)) as [H0 H1].
  unfold progress, Completed.
  destruct (Z.ltb_spec 0 len) as [Hn|Hn]; repeat split; intros; try lia;
    try reflexivity; try discriminate.
  - now apply progress_full.
  - now apply progress_full.
  - apply progress_full; tauto.
  - destruct len as [|p|p]; try lia.
    unfold Qle, Qdiv, Qmult, Qinv, inject_Z. simpl. lia.
  - destruct len as [|p|p]; try lia.
    unfold Qle, Qdiv, Qmult, Qinv, inject_Z. simpl.
    rewrite !Pos.mul_1_r. lia.
Qed.

(** C10: after [complete()] both flags are down, as in the initial state;
    the state after [complete()] is the Idle state that [reset()] gives with
    only the revealed text and the revealed length replaced, so nothing but
    the revealed length marks it as finished; the tick that ends a reveal
    (the interval firing with the revealed length at the document length) is
    [stop()], which lowers both flags too. *)
Theorem complete_flags (e : Hook) :
  isStreaming (complete fullText e) = false /\
  isPaused (complete fullText e) = false /\
  isStreaming init = false /\ isPaused init = false /\
  Idle (reset e) /\ Completed fullText (complete fullText e) /\
  complete fullText e = setIndexRef len (setStreamedText fullText (reset e)) /\
  (forall h r, fires h e = true -> len <= indexRef e ->
     step e (Tick h r) = stop e /\
     indexRef (stop e) = indexRef e /\
     isStreaming (stop e) = false /\ isPaused (stop e) = false).
Proof.
  repeat split.
  - simpl. rewrite H. unfold intervalCallback.
    destruct (Z.ltb_spec (indexRef e) len); [lia | reflexivity].
  - unfold stop, clearCurrent. destruct (intervalRef e); reflexivity.
Qed.

End HookFacts.

(** *** Concrete runs on the two-character document ["ab"] *)

Example run_ab_start : run "ab" [Start] = mkHook "" true false 0 (Some 1%nat) [1%nat] 2.
Proof. reflexivity. Qed.

Example run_ab_tick :
  run "ab" [Start; Tick 1 (1 # 2)] =
  mkHook "ab" true false 2 (Some 1%nat) [1%nat] 2.
Proof. reflexivity. Qed.

Example run_ab_last_tick :
  run "ab" [Start; Tick 1 (1 # 2); Tick 1 0] = mkHook "ab" false false 2 None [] 2.
Proof. reflexivity. Qed.

Lemma tick_while_streaming_witness :
  exists h, timers (run "ab" [Start]) = [h] /\
  forall r, isRandom r ->
    let e' := step "ab" (run "ab" [Start]) (Tick h r) in
    (indexRef (run "ab" [Start]) < len "ab" ->
       (chunkSize r = 1 \/ chunkSize r = 2 \/ chunkSize r = 3) /\
       (chunkSize r = 1 <-> (r * 3 < 1 - pow2 (-54))%Q) /\
       (chunkSize r = 2 <->
          (1 - pow2 (-54) <= r * 3)%Q /\ (r * 3 < 2 - pow2 (-53))%Q) /\
       (chunkSize r = 3 <-> (2 - pow2 (-53) <= r * 3)%Q) /\
       indexRef e' = Z.min (indexRef (run "ab" [Start]) + chunkSize r) (len "ab") /\
       streamedText e' = slice "ab" 0 (indexRef e') /\
       Z.of_nat (String.length (streamedText e')) = indexRef e' /\
       Streaming e' /\ timers e' = [h]) /\
    (len "ab" <= indexRef (run "ab" [Start]) ->
       indexRef e' = indexRef (run "ab" [Start]) /\
       streamedText e' = streamedText (run "ab" [Start]) /\
       Completed "ab" e' /\ timers e' = [] /\
       forall h' r', step "ab" e' (Tick h' r') = e').
Proof.
  apply (tick_while_streaming "ab" (run "ab" [Start])).
  - apply run_Reachable. repeat constructor.
  - split; reflexivity.
Defined.

(** C1 as stated fails: on ["ab"], the tick with chunk 2 brings the revealed
    length to the document length, yet the engine is still Streaming, its
    interval is still scheduled, it is not Complete, and one more tick
    fires and changes the state. *)
Lemma tick_reaching_end_not_complete :
  let e := run "ab" [Start; Tick 1 (1 # 2)] in
  isRandom (1 # 2) /\ chunkSize (1 # 2) = 2 /\
  indexRef e = len "ab" /\ Streaming e /\ fires 1 e = true /\
  ~ Completed "ab" e /\ step "ab" e (Tick 1 0) <> e.
Proof.
  simpl. repeat split; try reflexivity; try discriminate.
  intros (H & _). discriminate H.
Qed.

Lemma pause_spec_witness :
  let e := run "ab" [Start; Tick 1 (1 # 2)] in
  let e' := step "ab" e Pause in
  indexRef e' = indexRef e /\ streamedText e' = streamedText e /\
  isStreaming e' = isStreaming e /\ isPaused e' = true /\
  intervalRef e' = None /\ timers e' = [] /\
  (forall h r, step "ab" e' (Tick h r) = e') /\
  (Streaming e -> Paused e').
Proof.
  apply (pause_spec "ab" (run "ab" [Start; Tick 1 (1 # 2)])).
  apply run_Reachable. repeat constructor; first [reflexivity | vm_compute; discriminate].
Defined.

(** C5 as stated fails: [pause()] from the initial Idle state, and from the
    Complete state that [complete()] gives, changes the state (it raises
    [isPaused]), and a [resume()] after it schedules an interval. *)
Lemma pause_from_idle_not_noop :
  Idle init /\ step "ab" init Pause <> init /\
  Completed "ab" (run "ab" [Complete]) /\
  step "ab" (run "ab" [Complete]) Pause <> run "ab" [Complete] /\
  isPaused (run "ab" [Pause]) = true /\
  timers (run "ab" [Pause; Resume]) = [1%nat].
Proof. repeat split; try reflexivity; discriminate. Qed.

Lemma revealedLength_bounds_witness :
  let e := run "ab" [Start; Tick 1 (1 # 2); Pause] in
  0 <= indexRef e <= len "ab" /\
  Z.of_nat (String.length (streamedText e)) = indexRef e /\
  (forall h r, isRandom r -> Streaming e ->
     indexRef e <= indexRef (step "ab" e (Tick h r))) /\
  (Paused e ->
     (forall h r, step "ab" e (Tick h r) = e) /\
     (forall o, Paused (step "ab" e o) -> indexRef (step "ab" e o) = indexRef e)).
Proof.
  apply (revealedLength_bounds "ab" [Start; Tick 1 (1 # 2); Pause]).
  repeat constructor; first [reflexivity | vm_compute; discriminate].
Defined.

Lemma progress_spec_witness :
  let e := run "ab" [Start; Tick 1 (1 # 2)] in
  (len "ab" = 0 -> progress "ab" e = 0%Q) /\
  (0 < len "ab" ->
     progress "ab" e = (inject_Z (indexRef e) / inject_Z (len "ab") * 100)%Q /\
     ((progress "ab" e == 100)%Q <-> indexRef e = len "ab") /\
     (Completed "ab" e -> (progress "ab" e == 100)%Q)) /\
  (0 <= progress "ab" e)%Q /\ (progress "ab" e <= 100)%Q.
Proof.
  apply (progress_spec "ab" (run "ab" [Start; Tick 1 (1 # 2)])).
  apply run_Reachable. repeat constructor; first [reflexivity | vm_compute; discriminate].
Defined.

(** C8 as stated fails: on ["ab"], after the tick with chunk 2, [progress]
    is 100 while the engine is Streaming, not Complete; pausing there gives
    a Paused state with [progress] 100. *)
Lemma progress_100_not_complete :
  let e := run "ab" [Start; Tick 1 (1 # 2)] in
  0 < len "ab" /\ (progress "ab" e == 100)%Q /\ Streaming e /\
  ~ Completed "ab" e /\
  (progress "ab" (step "ab" e Pause) == 100)%Q /\ Paused (step "ab" e Pause).
Proof.
  simpl. repeat split; try reflexivity.
  intros (H & _). discriminate H.
Qed.

Lemma complete_flags_witness :
  isStreaming (complete "ab" (run "ab" [Start])) = false /\
  isPaused (complete "ab" (run "ab" [Start])) = false /\
  isStreaming init = false /\ isPaused init = false.
Proof.
  pose proof (complete_flags "ab" (run "ab" [Start])) as (H1 & H2 & H3 & H4 & _).
  repeat split; assumption.
Defined.

End RevealEngine.

(** ** The MDC render walk *)

Module Renderer.

Local Open Scope string_scope.
Local Set Warnings "-register-all".

(** How a JavaScript evaluation ends: with a value, or with a thrown
    exception. *)
Inductive completion (A : Type) : Type :=
| Normal (a : A)
| Throw (err : string).

Arguments Normal {A} a.
Arguments Throw {A} err.

Definition bind {A B} (c : completion A) (k : A -> completion B) : completion B :=
  match c with
  | Normal a => k a
  | Throw err => Throw err
  end.

Notation "'let*' x ':=' c 'in' k" := (bind c (fun x => k))
  (at level 10, x name, c at level 100, k at level 200).

(** [recv.m(...)]: calling a method of [undefined] throws a [TypeError]. *)
Definition callMethod {A B} (recv : option A) (m : A -> completion B) : completion B :=
  match recv with
  | Some a => m a
  | None => Throw "TypeError: Cannot read properties of undefined"
  end.

(** [recv?.m(...)]: [undefined] when the receiver is [undefined]. *)
Definition optCallMethod {A B} (recv : option A) (m : A -> completion B) : completion (option B) :=
  match recv with
  | Some a => let* b := m a in Normal (Some b)
  | None => Normal None
  end.

(** [Array.prototype.map] with a callback that may throw; the callback gets
    the element and its index, in order. *)
Definition mapIdx {A B} (f : A -> nat -> completion B) : nat -> list A -> completion (list B) :=
  fix go (i : nat) (l : list A) : completion (list B) :=
    match l with
    | [] => Normal []
    | a :: l' => let* b := f a i in let* bs := go (S i) l' in Normal (b :: bs)
    end.

Definition arrayMap {A B} (f : A -> nat -> completion B) (l : list A) : completion (list B) :=
  mapIdx f 0 l.

(** The own properties of [Object.prototype], which every object literal
    inherits. *)
Definition objectPrototypeKeys : list string :=
  [ "constructor"; "__proto__"; "hasOwnProperty"; "isPrototypeOf";
    "propertyIsEnumerable"; "toLocaleString"; "toString"; "valueOf";
    "__defineGetter__"; "__defineSetter__"; "__lookupGetter__";
    "__lookupSetter__" ].

(** The template literal [`${key}-${i}`]. *)
Definition childKey (key : string) (i : nat) : string :=
  key +:+ "-" +:+ pretty i.

(** The five components that [MDCComponents.tsx] exports. *)
Inductive Builtin := Alert | Callout | Card | Badge | CodeGroup.

(** [mdcComponents], an object literal. *)
Definition mdcComponents : gmap string Builtin :=
  {[ "alert" := Alert; "callout" := Callout; "card" := Card;
     "badge" := Badge; "code-group" := CodeGroup ]}.

(** [toLowerCase] on names written in ASCII. *)
Fixpoint asciiLower (s : string) : string :=
  match s with
  | EmptyString => EmptyString
  | String c s' =>
      let n := Ascii.nat_of_ascii c in
      String (if (65 <=? n)%nat && (n <=? 90)%nat
              then Ascii.ascii_of_nat (n + 32) else c)
             (asciiLower s')
  end.

(** The depth that the specification expects a heading to render with:
    [depth] clamped to the nearest bound of 1..6. *)
Definition spec_clampDepth (d : Z) : Z := Z.max 1 (Z.min 6 d).

Section Walk.

(** [V]: the values of node attributes ([unknown] in the source; they are
    data, as a parser yields them);
    [C]: the component types a registry holds;
    [toLowerCase]: [String.prototype.toLowerCase]. *)
Context {V C : Type}.
Variable toLowerCase : string -> string.

(** Element creation, as far as it depends on React and on the attribute
    values. The JSX of this file is compiled to calls of the JSX runtime
    (the file uses JSX without importing [React]):
    [<Component key={key} {...attrs}>{children}</Component>] is
    [jsx(Component, {...attrs, children: children}, key)].
    [keyOf v]: the key that element creation takes from a [key] entry of
    the props object whose value is [v]: none when [v] is [undefined],
    otherwise the string ['' + v].
    [otherReserved]: the names besides [key] that element creation keeps
    out of the props of an element: [ref], [__self] and [__source] up to
    React 18, none from React 19 on. *)
Variable keyOf : V -> option string.
Variable otherReserved : list string.

(** [MDCNode] of [lib/mdc-parser.ts], with the fields that [renderNode]
    reads through casts ([depth], [url], [ordered]); [fmAttributes], [data]
    and [lang] are never read by the renderer and are left out. A field
    marked [?] in the source is an [option]. *)
Inductive MDCNode : Type := mkNode {
  type : string;
  name : option string;
  children : option (list MDCNode);
  value : option string;
  attributes : option (gmap string V);
  depth : option Z;
  url : option string;
  ordered : option bool
}.

(** What [customComponents?.[componentName]] can evaluate to: an entry of
    the registry itself, or a property that the registry object inherits
    from [Object.prototype]. Both kinds of value are truthy. *)
Inductive ComponentRef : Type :=
| Registered (c : C)
| Inherited (k : string).

(** Property lookup [o[k]] on a registry written as an object literal. *)
Definition getProperty (o : gmap string C) (k : string) : option ComponentRef :=
  match o !! k with
  | Some c => Some (Registered c)
  | None =>
      if bool_decide (k ∈ objectPrototypeKeys) then Some (Inherited k) else None
  end.

(** The type of a JSX element: a host tag or a component. *)
Inductive ElementType : Type :=
| Tag (tag : string)
| Component (c : ComponentRef).

(** The props of an element apart from [children], in the order of the
    JSX: one prop [name={value}] (the value may be [undefined]), or the
    props that come from a spread [{...attrs}]. *)
Inductive JsxAttr : Type :=
| Attr (attr : string) (v : option string)
| Spread (attrs : gmap string V).

(** [ReactNode]: what [renderNode] returns. An element is the element
    object that the JSX creates: its type, its key ([None] for an element
    without key), its props apart from [children], and its children, one
    for each child expression of the JSX. *)
Inductive ReactNode : Type :=
| RNull
| RUndefined
| RString (s : string)
| RArray (items : list ReactNode)
| RElement (ty : ElementType) (key : option string) (props : list JsxAttr)
           (kids : list ReactNode).

Definition ofString (v : option string) : ReactNode :=
  match v with Some s => RString s | None => RUndefined end.

Definition ofArray (v : option (list ReactNode)) : ReactNode :=
  match v with Some l => RArray l | None => RUndefined end.

(** The [sizes] table of the heading branch. *)
Definition sizes (depth : Z) : option string :=
  if (depth =? 1)%Z then Some "text-3xl font-bold mb-6"
  else if (depth =? 2)%Z then Some "text-2xl font-bold mb-4"
  else if (depth =? 3)%Z then Some "text-xl font-semibold mb-3"
  else if (depth =? 4)%Z then Some "text-lg font-semibold mb-2"
  else if (depth =? 5)%Z then Some "text-base font-semibold mb-2"
  else if (depth =? 6)%Z then Some "text-sm font-semibold mb-2"
  else None.

(** The [switch (depth)] of the heading branch. *)
Definition headingTag (depth : Z) : string :=
  if (depth =? 1)%Z then "h1"
  else if (depth =? 2)%Z then "h2"
  else if (depth =? 3)%Z then "h3"
  else if (depth =? 4)%Z then "h4"
  else if (depth =? 5)%Z then "h5"
  else "h6".

(** [node.depth || 1]: a missing depth and the falsy depth 0 give 1. *)
Definition depthOr1 (d : option Z) : Z :=
  match d with
  | Some d => if (d =? 0)%Z then 1%Z else d
  | None => 1%Z
  end.

Definition isComponentType (ty : string) : bool :=
  String.eqb ty "containerComponent" || String.eqb ty "leafComponent"
  || String.eqb ty "textComponent".

Definition truthy (b : option bool) : bool :=
  match b with Some true => true | _ => false end.

(** [const componentName = node.name?.toLowerCase() || ''] *)
Definition componentName (node : MDCNode) : string :=
  match name node with Some n => toLowerCase n | None => "" end.

(** [node.attributes || {}] *)
Definition attributesOrEmpty (node : MDCNode) : gmap string V :=
  match attributes node with Some a => a | None => ∅ end.

(** The key that element creation finds in the spread attributes of a
    node: [jsx] reads [config.key], and when it is not [undefined] the
    element gets the key ['' + config.key] instead of the key argument. *)
Definition keyAttr (node : MDCNode) : option string :=
  attributesOrEmpty node !! "key" ≫= keyOf.

(** The key of the element [<Component key={key} {...attrs}>]. *)
Definition spreadKey (node : MDCNode) (key : string) : string :=
  match keyAttr node with Some k => k | None => key end.

(** The props, apart from [children], of an element whose props object is
    [{...attrs, children: children}]: the entries of [attrs] except
    [key] and the other reserved names, which element creation leaves
    out, and except [children], which the child expression overwrites. *)
Definition elementProps (attrs : gmap string V) : gmap string V :=
  foldr delete attrs ("children" :: "key" :: otherReserved).

Fixpoint renderNode (customComponents : option (gmap string C))
    (node : MDCNode) (key : string) {struct node} : completion ReactNode :=
  let renderChildren :=
    optCallMethod (children node)
      (arrayMap (fun child i =>
                   renderNode customComponents child (childKey key i))) in
  let wrap (tag : string) (props : list JsxAttr) :=
    let* kids := renderChildren in
    Normal (RElement (Tag tag) (Some key) props [ofArray kids]) in
  if String.eqb (type node) "text" then Normal (ofString (value node))
  else if isComponentType (type node) then
    match
      match customComponents with
      | Some reg => getProperty reg (componentName node)
      | None => None
      end
    with
    | Some c =>
        let* kids := renderChildren in
        Normal (RElement (Component c) (Some (spreadKey node key))
                  [Spread (elementProps (attributesOrEmpty node))]
                  [ofArray kids])
    | None =>
        let* kids := renderChildren in
        Normal
          (RElement (Tag "div") (Some key)
             [Attr "className"
                (Some "border border-dashed border-zinc-600 p-2 my-2 rounded")]
             [RElement (Tag "span") None
                [Attr "className" (Some "text-xs text-zinc-500")]
                [RString "Unknown component: "; ofString (name node)];
              RElement (Tag "div") None [] [ofArray kids]])
    end
  else if String.eqb (type node) "paragraph" then
    wrap "p" [Attr "className" (Some "mb-4 leading-relaxed")]
  else if String.eqb (type node) "heading" then
    let depth := depthOr1 (depth node) in
    let* kids := renderChildren in
    Normal (RElement (Tag (headingTag depth)) (Some key)
              [Attr "className" (sizes depth)] [ofArray kids])
  else if String.eqb (type node) "code" then
    Normal
      (RElement (Tag "pre") (Some key)
         [Attr "className"
            (Some "bg-zinc-900 rounded-lg p-4 my-4 overflow-x-auto border border-zinc-800")]
         [RElement (Tag "code") None
            [Attr "className" (Some "text-sm text-zinc-300 font-mono")]
            [ofString (value node)]])
  else if String.eqb (type node) "inlineCode" then
    Normal
      (RElement (Tag "code") (Some key)
         [Attr "className"
            (Some "bg-zinc-800 px-1.5 py-0.5 rounded text-sm text-pink-300 font-mono")]
         [ofString (value node)])
  else if String.eqb (type node) "strong" then
    wrap "strong" [Attr "className" (Some "font-bold")]
  else if String.eqb (type node) "emphasis" then
    wrap "em" [Attr "className" (Some "italic")]
  else if String.eqb (type node) "link" then
    wrap "a" [Attr "href" (url node);
              Attr "className" (Some "text-blue-400 hover:underline");
              Attr "target" (Some "_blank");
              Attr "rel" (Some "noopener noreferrer")]
  else if String.eqb (type node) "list" then
    wrap (if truthy (ordered node) then "ol" else "ul")
         [Attr "className"
            (Some ("mb-4 pl-6 " +:+
                   (if truthy (ordered node) then "list-decimal" else "list-disc")))]
  else if String.eqb (type node) "listItem" then
    wrap "li" [Attr "className" (Some "mb-1")]
  else if String.eqb (type node) "blockquote" then
    wrap "blockquote"
         [Attr "className"
            (Some "border-l-4 border-zinc-600 pl-4 italic text-zinc-400 my-4")]
  else if String.eqb (type node) "thematicBreak" then
    Normal (RElement (Tag "hr") (Some key)
              [Attr "className" (Some "border-zinc-700 my-6")] [])
  else if bool_decide (is_Some (children node)) then
    let* kids :=
      callMethod (children node)
        (arrayMap (fun child i =>
                     renderNode customComponents child (childKey key i))) in
    Normal (RArray kids)
  else Normal RNull.

(** The result of [parseMDC(content)]: the promise resolves with a body or
    rejects with an error that carries a message. The parser itself
    (unified, remark-parse, remark-mdc) is outside the repository. *)
Inductive ParseResult : Type :=
| Resolved (body : MDCNode)
| Rejected (message : string).

(** The two state cells of [MDCRenderer] once the promise has settled:
    [.then] stores the result and clears the error, [.catch] stores the
    message and clears the result. *)
Definition settle (r : ParseResult) : option MDCNode * option string :=
  match r with
  | Resolved body => (Some body, None)
  | Rejected message => (None, Some message)
  end.

(** The render of [MDCRenderer] for given state cells. [if (error)] tests a
    string, so an empty message counts as no error. *)
Definition renderState (components : option (gmap string C))
    (parsed : option MDCNode) (error : option string) : completion ReactNode :=
  match error with
  | Some (String c msg) =>
      Normal (RElement (Tag "div") None
                [Attr "className" (Some "text-red-400 p-4 bg-red-500/10 rounded")]
                [RString "Error parsing MDC: "; RString (String c msg)])
  | _ =>
      match parsed with
      | None =>
          Normal (RElement (Tag "div") None
                    [Attr "className" (Some "text-zinc-500")]
                    [RString "Loading..."])
      | Some body =>
          let* out := renderNode components body "root" in
          Normal (RElement (Tag "div") None
                    [Attr "className" (Some "mdc-content")] [out])
      end
  end.

(** [MDCRenderer({ content, components = mdcComponents })] after
    [parseMDC(content)] has settled; a [components] prop that is
    [undefined] takes the default. *)
Definition MDCRenderer (parseMDC : string -> ParseResult)
    (mdcComponents : gmap string C) (content : string)
    (components : option (gmap string C)) : completion ReactNode :=
  let registry :=
    match components with Some reg => reg | None => mdcComponents end in
  let '(parsed, error) := settle (parseMDC content) in
  renderState (Some registry) parsed error.

(** *** Keys and paths *)

(** The keys of the elements in a render result, outermost first. *)
Fixpoint keys (r : ReactNode) : list string :=
  match r with
  | RElement _ key _ kids =>
      match key with Some k => [k] | None => [] end ++ flat_map keys kids
  | RArray items => flat_map keys items
  | _ => []
  end.

(** The strings in a render result. *)
Fixpoint texts (r : ReactNode) : list string :=
  match r with
  | RString s => [s]
  | RElement _ _ _ kids => flat_map texts kids
  | RArray items => flat_map texts items
  | _ => []
  end.

(** The key that the walk passes to the node at path [p] below a node that
    was given [key]. *)
Fixpoint pathKey (key : string) (p : list nat) : string :=
  match p with
  | [] => key
  | i :: p' => pathKey (childKey key i) p'
  end.

(** Node types whose branch of [renderNode] returns an element with a key:
    every branch but the text branch and the default. *)
Definition producesElement (ty : string) : bool :=
  if String.eqb ty "text" then false
  else if isComponentType ty then true
  else if String.eqb ty "paragraph" then true
  else if String.eqb ty "heading" then true
  else if String.eqb ty "code" then true
  else if String.eqb ty "inlineCode" then true
  else if String.eqb ty "strong" then true
  else if String.eqb ty "emphasis" then true
  else if String.eqb ty "link" then true
  else if String.eqb ty "list" then true
  else if String.eqb ty "listItem" then true
  else if String.eqb ty "blockquote" then true
  else if String.eqb ty "thematicBreak" then true
  else false.

(** Node types whose branch of [renderNode] walks [node.children]: every
    branch but text, code, inline code and thematic break. *)
Definition rendersChildren (ty : string) : bool :=
  if String.eqb ty "text" then false
  else if isComponentType ty then true
  else if String.eqb ty "paragraph" then true
  else if String.eqb ty "heading" then true
  else if String.eqb ty "code" then false
  else if String.eqb ty "inlineCode" then false
  else if String.eqb ty "strong" then true
  else if String.eqb ty "emphasis" then true
  else if String.eqb ty "link" then true
  else if String.eqb ty "list" then true
  else if String.eqb ty "listItem" then true
  else if String.eqb ty "blockquote" then true
  else if String.eqb ty "thematicBreak" then false
  else true.

Definition childList (n : MDCNode) : list MDCNode :=
  match children n with Some cs => cs | None => [] end.

(** The node that the walk reaches along the child indices [p], if any. *)
Fixpoint visit (n : MDCNode) (p : list nat) : option MDCNode :=
  match p with
  | [] => Some n
  | i :: p' =>
      if rendersChildren (type n) then
        match childList n !! i with
        | Some c => visit c p'
        | None => None
        end
      else None
  end.

(** [extends t1 t2]: the tree [t2] has the shape of [t1] up to the extent of
    [t1]: the same node type at the root, and the children of [t1] are
    extended, position by position, by the first children of [t2]. *)
Fixpoint extends (t1 t2 : MDCNode) {struct t1} : bool :=
  String.eqb (type t1) (type t2)
  && match children t1 with
     | None => true
     | Some cs =>
         (fix go (cs1 cs2 : list MDCNode) {struct cs1} : bool :=
            match cs1, cs2 with
            | [], _ => true
            | c1 :: r1, c2 :: r2 => extends c1 c2 && go r1 r2
            | _ :: _, [] => false
            end) cs (childList t2)
     end.

(** The key that takes the place of the key given to a node: the key among
    the attributes of a component node for which the lookup finds a
    component. That branch is the only one that spreads the attributes
    into the element; every other branch returns an element with the key
    it was given. *)
Definition overrideKey (customComponents : option (gmap string C))
    (node : MDCNode) : option string :=
  if isComponentType (type node) then
    match
      match customComponents with
      | Some reg => getProperty reg (componentName node)
      | None => None
      end
    with
    | Some _ => keyAttr node
    | None => None
    end
  else None.

(** The key of the element that [renderNode] returns for a node that was
    given [key]. *)
Definition elementKey (customComponents : option (gmap string C))
    (node : MDCNode) (key : string) : string :=
  match overrideKey customComponents node with
  | Some k => k
  | None => key
  end.

(** [extendsKeyed t1 t2]: [t2] extends the shape of [t1] as in [extends],
    and nodes at the same position have the same key among their spread
    attributes, or none. *)
Fixpoint extendsKeyed (customComponents : option (gmap string C))
    (t1 t2 : MDCNode) {struct t1} : bool :=
  String.eqb (type t1) (type t2)
  && bool_decide (overrideKey customComponents t1 =
                  overrideKey customComponents t2)
  && match children t1 with
     | None => true
     | Some cs =>
         (fix go (cs1 cs2 : list MDCNode) {struct cs1} : bool :=
            match cs1, cs2 with
            | [], _ => true
            | c1 :: r1, c2 :: r2 =>
                extendsKeyed customComponents c1 c2 && go r1 r2
            | _ :: _, [] => false
            end) cs (childList t2)
     end.

(** No node of the tree has a [key] among its attributes that element
    creation would take as a key. *)
Fixpoint keyFree (t : MDCNode) : bool :=
  bool_decide (keyAttr t = None)
  && match children t with
     | None => true
     | Some cs => forallb keyFree cs
     end.

(** [node.children?.map((child, i) => renderNode(child, customComponents,
    `${key}-${i}`))], the expression that every branch with children
    evaluates. *)
Definition renderChildren (customComponents : option (gmap string C))
    (node : MDCNode) (key : string) : completion (option (list ReactNode)) :=
  optCallMethod (children node)
    (arrayMap (fun child i =>
                 renderNode customComponents child (childKey key i))).

(** [kids] is the value of [renderChildren] for [node]: [undefined] when
    the node has no [children], otherwise the array of the results of
    [renderNode] on the children, in order, the child at index [i] rendered
    with key [`${key}-${i}`]. *)
Definition RenderedChildren (customComponents : option (gmap string C))
    (node : MDCNode) (key : string) (kids : option (list ReactNode)) : Prop :=
  match children node, kids with
  | None, None => True
  | Some cs, Some outs =>
      length outs = length cs /\
      forall i child, cs !! i = Some child ->
        exists out, outs !! i = Some out /\
          renderNode customComponents child (childKey key i) = Normal out
  | _, _ => False
  end.

(** *** Induction on nodes, and [Array.prototype.map] *)

Lemma MDCNode_induction (P : MDCNode -> Prop) :
  (forall n, Forall P (childList n) -> P n) -> forall n, P n.
Proof.
  intros H. fix IH 1. intros [ty nm ch v a d u o]. apply H.
  unfold childList. simpl. destruct ch as [cs|]; [|constructor].
  induction cs as [|c cs IHcs]; constructor; [apply IH | exact IHcs].
Qed.

Lemma mapIdx_total {A B} (f : A -> nat -> completion B) (l : list A) :
  Forall (fun a => forall i, exists b, f a i = Normal b) l ->
  forall i, exists bs, mapIdx f i l = Normal bs.
Proof.
  induction 1 as [|a l Ha _ IH]; intros i; simpl.
  - now exists [].
  - destruct (Ha i) as [b ->]. destruct (IH (S i)) as [bs ->].
    now exists (b :: bs).
Qed.

Lemma mapIdx_spec {A B} (f : A -> nat -> completion B) (l : list A) :
  forall i bs, mapIdx f i l = Normal bs ->
  length bs = length l /\
  forall j a, l !! j = Some a ->
    exists b, bs !! j = Some b /\ f a (i + j)%nat = Normal b.
Proof.
  induction l as [|a l IH]; intros i bs H; simpl in H.
  - injection H as <-. split; [reflexivity|]. intros j a' Hj. discriminate Hj.
  - destruct (f a i) as [b|] eqn:Eb; [|discriminate]. simpl in H.
    destruct (mapIdx f (S i) l) as [bs'|] eqn:Ebs; [|discriminate].
    simpl in H. injection H as <-.
    destruct (IH _ _ Ebs) as [Hlen Hget]. split; [simpl; now rewrite Hlen|].
    intros [|j] a' Hj; simpl in Hj.
    + injection Hj as <-. exists b. rewrite Nat.add_0_r. now split.
    + destruct (Hget j a' Hj) as (b' & Hb' & Hf). exists b'. split; [exact Hb'|].
      now replace (i + S j)%nat with (S i + j)%nat by lia.
Qed.

Lemma renderChildren_spec customComponents node key kids :
  renderChildren customComponents node key = Normal kids ->
  RenderedChildren customComponents node key kids.
Proof.
  unfold renderChildren, RenderedChildren, optCallMethod, arrayMap.
  destruct (children node) as [cs|]; intros H.
  - destruct (mapIdx _ 0 cs) as [outs|] eqn:E; [|discriminate].
    simpl in H. injection H as <-.
    destruct (mapIdx_spec _ _ _ _ E) as [Hlen Hget]. split; [exact Hlen|].
    intros i child Hi. destruct (Hget i child Hi) as (out & Ho & Hf).
    exists out. now split.
  - injection H as <-. exact I.
Qed.

Lemma renderChildren_total customComponents node key :
  Forall (fun c => forall k, exists out,
            renderNode customComponents c k = Normal out) (childList node) ->
  exists kids, renderChildren customComponents node key = Normal kids.
Proof.
  unfold renderChildren, childList, optCallMethod, arrayMap.
  destruct (children node) as [cs|]; intros H.
  - destruct (mapIdx_total
                (fun child i => renderNode customComponents child (childKey key i))
                cs) with (i := 0%nat) as [outs E].
    { eapply Forall_impl; [exact H|]. intros c Hc i. apply Hc. }
    rewrite E. now eexists.
  - now eexists.
Qed.

(** [renderNode] on a node, with the children expression factored out. *)
Lemma renderNode_unfold customComponents node key :
  renderNode customComponents node key =
  let wrap (tag : string) (props : list JsxAttr) :=
    let* kids := renderChildren customComponents node key in
    Normal (RElement (Tag tag) (Some key) props [ofArray kids]) in
  if String.eqb (type node) "text" then Normal (ofString (value node))
  else if isComponentType (type node) then
    match
      match customComponents with
      | Some reg => getProperty reg (componentName node)
      | None => None
      end
    with
    | Some c =>
        let* kids := renderChildren customComponents node key in
        Normal (RElement (Component c) (Some (spreadKey node key))
                  [Spread (elementProps (attributesOrEmpty node))]
                  [ofArray kids])
    | None =>
        let* kids := renderChildren customComponents node key in
        Normal
          (RElement (Tag "div") (Some key)
             [Attr "className"
                (Some "border border-dashed border-zinc-600 p-2 my-2 rounded")]
             [RElement (Tag "span") None
                [Attr "className" (Some "text-xs text-zinc-500")]
                [RString "Unknown component: "; ofString (name node)];
              RElement (Tag "div") None [] [ofArray kids]])
    end
  else if String.eqb (type node) "paragraph" then
    wrap "p" [Attr "className" (Some "mb-4 leading-relaxed")]
  else if String.eqb (type node) "heading" then
    let* kids := renderChildren customComponents node key in
    Normal (RElement (Tag (headingTag (depthOr1 (depth node)))) (Some key)
              [Attr "className" (sizes (depthOr1 (depth node)))]
              [ofArray kids])
  else if String.eqb (type node) "code" then
    Normal
      (RElement (Tag "pre") (Some key)
         [Attr "className"
            (Some "bg-zinc-900 rounded-lg p-4 my-4 overflow-x-auto border border-zinc-800")]
         [RElement (Tag "code") None
            [Attr "className" (Some "text-sm text-zinc-300 font-mono")]
            [ofString (value node)]])
  else if String.eqb (type node) "inlineCode" then
    Normal
      (RElement (Tag "code") (Some key)
         [Attr "className"
            (Some "bg-zinc-800 px-1.5 py-0.5 rounded text-sm text-pink-300 font-mono")]
         [ofString (value node)])
  else if String.eqb (type node) "strong" then
    wrap "strong" [Attr "className" (Some "font-bold")]
  else if String.eqb (type node) "emphasis" then
    wrap "em" [Attr "className" (Some "italic")]
  else if String.eqb (type node) "link" then
    wrap "a" [Attr "href" (url node);
              Attr "className" (Some "text-blue-400 hover:underline");
              Attr "target" (Some "_blank");
              Attr "rel" (Some "noopener noreferrer")]
  else if String.eqb (type node) "list" then
    wrap (if truthy (ordered node) then "ol" else "ul")
         [Attr "className"
            (Some ("mb-4 pl-6 " +:+
                   (if truthy (ordered node) then "list-decimal" else "list-disc")))]
  else if String.eqb (type node) "listItem" then
    wrap "li" [Attr "className" (Some "mb-1")]
  else if String.eqb (type node) "blockquote" then
    wrap "blockquote"
         [Attr "className"
            (Some "border-l-4 border-zinc-600 pl-4 italic text-zinc-400 my-4")]
  else if String.eqb (type node) "thematicBreak" then
    Normal (RElement (Tag "hr") (Some key)
              [Attr "className" (Some "border-zinc-700 my-6")] [])
  else
    let* kids := renderChildren customComponents node key in
    Normal match kids with Some l => RArray l | None => RNull end.
Proof.
  destruct node as [ty nm ch v a d u o].
  unfold renderChildren, spreadKey, keyAttr, attributesOrEmpty.
  cbn [renderNode type children value attributes depth url ordered].
  repeat match goal with
         | |- context [if ?b then _ else _] =>
             lazymatch b with
             | bool_decide _ => fail
             | truthy _ => fail
             | _ => destruct b; [reflexivity|]
             end
         end.
  destruct ch as [cs|].
  - rewrite bool_decide_eq_true_2 by eauto. simpl.
    destruct (arrayMap _ cs); reflexivity.
  - rewrite bool_decide_eq_false_2 by (intros [? ?]; discriminate).
    reflexivity.
Qed.

Lemma renderNode_total customComponents node :
  forall key, exists out, renderNode customComponents node key = Normal out.
Proof.
  induction node as [node IH] using MDCNode_induction. intros key.
  destruct (renderChildren_total customComponents node key IH) as [kids Hk].
  rewrite renderNode_unfold. cbv zeta. rewrite Hk. simpl.
  repeat match goal with
         | |- context [if ?b then _ else _] => destruct b
         | |- context [match ?m with Some _ => _ | None => _ end] => destruct m
         end;
    eexists; reflexivity.
Qed.

Lemma renderChildren_defined customComponents node key :
  exists kids,
    renderChildren customComponents node key = Normal kids /\
    RenderedChildren customComponents node key kids.
Proof.
  destruct (renderChildren_total customComponents node key) as [kids Hk].
  { apply Forall_forall. intros c _. apply renderNode_total. }
  exists kids. split; [exact Hk | now apply renderChildren_spec].
Qed.

(** C2: the render walk never throws. For every node, whatever its type
    string and whichever of its optional fields are missing, [renderNode]
    completes normally with some result (possibly [null]); and for every
    content string, whatever the parser makes of it (a body of any shape,
    or a rejection), [MDCRenderer] completes normally. *)
Theorem render_never_throws :
  (forall customComponents node key,
     exists out, renderNode customComponents node key = Normal out) /\
  (forall parseMDC mdcComponents content components,
     exists out,
       MDCRenderer parseMDC mdcComponents content components = Normal out).
Proof.
  split.
  - intros reg node key. apply renderNode_total.
  - intros parseMDC mdcComponents content components. unfold MDCRenderer.
    destruct (parseMDC content) as [body|message]; simpl.
    + destruct (renderNode_total
                  (Some match components with
                        | Some reg => reg
                        | None => mdcComponents
                        end) body "root") as [out ->].
      eexists; reflexivity.
    + destruct message; eexists; reflexivity.
Qed.

(** The fallback branch: when the lookup of the lower-cased name finds
    nothing, not even an inherited property, the result is the dashed
    placeholder with the name as written and the rendered children. *)
Lemma unknown_component_fallback (reg : gmap string C) node key :
  isComponentType (type node) = true ->
  getProperty reg (componentName node) = None ->
  exists kids,
    RenderedChildren (Some reg) node key kids /\
    renderNode (Some reg) node key =
    Normal
      (RElement (Tag "div") (Some key)
         [Attr "className"
            (Some "border border-dashed border-zinc-600 p-2 my-2 rounded")]
         [RElement (Tag "span") None
            [Attr "className" (Some "text-xs text-zinc-500")]
            [RString "Unknown component: "; ofString (name node)];
          RElement (Tag "div") None [] [ofArray kids]]).
Proof.
  intros Hc Hg.
  destruct (renderChildren_defined (Some reg) node key) as (kids & Hk & Hr).
  exists kids. split; [exact Hr|].
  rewrite renderNode_unfold. cbv zeta. rewrite Hk, Hc, Hg.
  unfold isComponentType in Hc.
  destruct (String.eqb_spec (type node) "text") as [E|_]; [|reflexivity].
  rewrite E in Hc. discriminate Hc.
Qed.

Lemma lookup_foldr_delete (names : list string) (attrs : gmap string V)
    (k : string) :
  foldr delete attrs names !! k =
  if bool_decide (k ∈ names) then None else attrs !! k.
Proof.
  induction names as [|n names IH]; simpl; [reflexivity|].
  destruct (decide (n = k)) as [->|Hn].
  - rewrite lookup_delete_eq, bool_decide_eq_true_2; [reflexivity|].
    apply list_elem_of_here.
  - rewrite lookup_delete_ne, IH by exact Hn.
    destruct (decide (k ∈ names)) as [Hin|Hin].
    + rewrite !bool_decide_eq_true_2; [reflexivity| |exact Hin].
      now apply list_elem_of_further.
    + rewrite !bool_decide_eq_false_2; [reflexivity| |exact Hin].
      intros H. apply elem_of_cons in H as [->|H]; [now apply Hn|].
      now apply Hin.
Qed.

(** C6, as the code has it: a component node whose lower-cased name has an
    entry in the registry renders as one element of exactly that
    component, with the node's rendered children as its child content.
    The attributes are spread into the element together with the key, so
    they do not all arrive as props: a [key] attribute is no prop but
    becomes the key of the element, in place of the key that was given; a
    [children] attribute is overwritten by the rendered children; the
    other names that element creation reserves are left out. Every other
    attribute is a prop with its value unchanged, and nothing is added.
    When the attributes hold none of these names (in particular when the
    node has no attributes) the element has the given key and exactly the
    attributes as its props. *)
Theorem registered_component_dispatch (reg : gmap string C) node key (c : C) :
  isComponentType (type node) = true ->
  reg !! componentName node = Some c ->
  let attrs := attributesOrEmpty node in
  let special := "children" :: "key" :: otherReserved in
  (exists kids,
     RenderedChildren (Some reg) node key kids /\
     renderNode (Some reg) node key =
     Normal (RElement (Component (Registered c)) (Some (spreadKey node key))
               [Spread (elementProps attrs)] [ofArray kids])) /\
  (forall k,
     elementProps attrs !! k =
     if bool_decide (k ∈ special) then None else attrs !! k) /\
  (forall v k,
     attrs !! "key" = Some v -> keyOf v = Some k -> spreadKey node key = k) /\
  (attrs !! "key" = None -> spreadKey node key = key) /\
  ((forall k, k ∈ special -> attrs !! k = None) ->
   spreadKey node key = key /\ elementProps attrs = attrs).
Proof.
  intros Hc Hg attrs special. split; [|split; [|split; [|split]]].
  - destruct (renderChildren_defined (Some reg) node key) as (kids & Hk & Hr).
    exists kids. split; [exact Hr|].
    rewrite renderNode_unfold. cbv zeta. unfold getProperty.
    rewrite Hk, Hc, Hg.
    unfold isComponentType in Hc.
    destruct (String.eqb_spec (type node) "text") as [E|_]; [|reflexivity].
    rewrite E in Hc. discriminate Hc.
  - intros k. apply lookup_foldr_delete.
  - intros v k Hv Hk. unfold spreadKey, keyAttr. fold attrs.
    rewrite Hv. simpl. now rewrite Hk.
  - intros Hv. unfold spreadKey, keyAttr. fold attrs. now rewrite Hv.
  - intros Hnone. split.
    + unfold spreadKey, keyAttr. fold attrs. rewrite Hnone; [reflexivity|].
      apply list_elem_of_further, list_elem_of_here.
    + apply map_eq. intros k. unfold elementProps.
      rewrite lookup_foldr_delete. fold special.
      destruct (decide (k ∈ special)) as [Hin|Hin].
      * rewrite bool_decide_eq_true_2 by exact Hin. symmetry.
        now apply Hnone.
      * now rewrite bool_decide_eq_false_2 by exact Hin.
Qed.

(** C9, as the code has it: a heading renders with the depth
    [node.depth || 1] (a missing depth and depth 0 count as 1); for depths 1
    to 6 the tag is [h1] to [h6] with the class of the [sizes] table; every
    other depth, below 1 or above 6, renders an [h6] whose class is
    [undefined], because the table has no such entry. *)
Theorem heading_tiers customComponents node key :
  type node = "heading" ->
  let d := depthOr1 (depth node) in
  (exists kids,
     RenderedChildren customComponents node key kids /\
     renderNode customComponents node key =
     Normal (RElement (Tag (headingTag d)) (Some key)
               [Attr "className" (sizes d)] [ofArray kids])) /\
  (depth node = None \/ depth node = Some 0%Z -> d = 1%Z) /\
  ((1 <= d <= 6)%Z ->
     headingTag d = "h" +:+ pretty d /\ is_Some (sizes d)) /\
  ((d < 1 \/ 6 < d)%Z -> headingTag d = "h6" /\ sizes d = None).
Proof.
  intros Ht d. repeat split.
  - destruct (renderChildren_defined customComponents node key)
      as (kids & Hk & Hr).
    exists kids. split; [exact Hr|].
    rewrite renderNode_unfold. cbv zeta. rewrite Hk, Ht. reflexivity.
  - subst d. intros [-> | ->]; reflexivity.
  - assert (Hd : d = 1%Z \/ d = 2%Z \/ d = 3%Z \/ d = 4%Z \/ d = 5%Z \/ d = 6%Z)
      by lia.
    destruct Hd as [-> | [-> | [-> | [-> | [-> | ->]]]]]; reflexivity.
  - assert (Hd : d = 1%Z \/ d = 2%Z \/ d = 3%Z \/ d = 4%Z \/ d = 5%Z \/ d = 6%Z)
      by lia.
    destruct Hd as [-> | [-> | [-> | [-> | [-> | ->]]]]]; eexists; reflexivity.
  - unfold headingTag.
    repeat match goal with
           | |- context [(d =? ?k)%Z] => destruct (Z.eqb_spec d k); [lia|]
           end.
    reflexivity.
  - unfold sizes.
    repeat match goal with
           | |- context [(d =? ?k)%Z] => destruct (Z.eqb_spec d k); [lia|]
           end.
    reflexivity.
Qed.

(** *** Keys *)

Lemma In_lookup {A} (x : A) (l : list A) :
  In x l <-> exists i, l !! i = Some x.
Proof. rewrite <- list_elem_of_In. apply list_elem_of_lookup. Qed.

Lemma keys_ofString (v : option string) : keys (ofString v) = [].
Proof. destruct v; reflexivity. Qed.

(** The keys of a result: the key of the element if the branch of the node
    returns one, then the keys of the rendered children if its branch
    walks them. *)
Lemma keys_renderNode customComponents node key kids out :
  renderChildren customComponents node key = Normal kids ->
  renderNode customComponents node key = Normal out ->
  keys out =
  ((if producesElement (type node)
    then [elementKey customComponents node key] else []) ++
   (if rendersChildren (type node) then keys (ofArray kids) else []))%list.
Proof.
  intros Hk. rewrite renderNode_unfold. cbv zeta. rewrite Hk.
  unfold producesElement, rendersChildren, elementKey, overrideKey, spreadKey.
  simpl.
  repeat match goal with
         | |- context [if ?b then _ else _] =>
             lazymatch b with
             | truthy _ => fail
             | _ => destruct b
             end
         end;
    try match goal with
        | |- context [match ?m with Some _ => _ | None => _ end = Normal _] =>
            destruct m
        end;
    intros H; injection H as <-; simpl;
    rewrite ?keys_ofString, ?app_nil_r; try reflexivity.
  destruct kids; reflexivity.
Qed.

Lemma keys_children customComponents node key kids :
  RenderedChildren customComponents node key kids ->
  forall k,
    In k (keys (ofArray kids)) <->
    exists i child out,
      childList node !! i = Some child /\
      renderNode customComponents child (childKey key i) = Normal out /\
      In k (keys out).
Proof.
  unfold RenderedChildren, childList.
  destruct (children node) as [cs|], kids as [outs|]; try tauto; simpl.
  - intros [Hlen Hget] k. rewrite in_flat_map. split.
    + intros (o & Ho & Hko). apply In_lookup in Ho as [i Hi].
      destruct (lookup_lt_is_Some_2 cs i) as [child Hc].
      { rewrite <- Hlen. eapply lookup_lt_Some, Hi. }
      destruct (Hget i child Hc) as (out & Hout & Hr).
      exists i, child, out. repeat split; try assumption. congruence.
    + intros (i & child & out & Hc & Hr & Hko).
      destruct (Hget i child Hc) as (out' & Hout & Hr').
      exists out. split; [|exact Hko]. apply In_lookup. exists i. congruence.
  - intros _ k. split; [intros []|]. intros (i & child & out & Hc & _).
    discriminate Hc.
Qed.

(** Every key in the result of a walk is the key of the element of a node
    that the walk reaches and whose branch returns an element, and
    conversely; the node was given its path key. *)
Lemma keys_visit customComponents node :
  forall key out,
    renderNode customComponents node key = Normal out ->
    forall k,
      In k (keys out) <->
      exists p m,
        visit node p = Some m /\ producesElement (type m) = true /\
        k = elementKey customComponents m (pathKey key p).
Proof.
  induction node as [node IH] using MDCNode_induction. intros key out Hout k.
  destruct (renderChildren_defined customComponents node key)
    as (kids & Hk & Hr).
  rewrite (keys_renderNode _ _ _ _ _ Hk Hout), in_app_iff.
  rewrite Forall_forall in IH. split.
  - intros [Hin | Hin].
    + destruct (producesElement (type node)) eqn:Ep; [|destruct Hin].
      destruct Hin as [<- | []]. exists [], node. now repeat split.
    + destruct (rendersChildren (type node)) eqn:Er; [|destruct Hin].
      apply (keys_children _ _ _ _ Hr) in Hin
        as (i & child & o & Hc & Hro & Hko).
      assert (Hel : child ∈ childList node)
        by (apply list_elem_of_lookup; eauto).
      apply (IH child Hel _ _ Hro) in Hko as (p & m & Hv & Hp & ->).
      exists (i :: p), m. simpl. rewrite Er, Hc. now repeat split.
  - intros (p & m & Hv & Hp & ->). destruct p as [|i p]; simpl in Hv.
    + injection Hv as <-. left. rewrite Hp. now left.
    + right. destruct (rendersChildren (type node)); [|discriminate].
      destruct (childList node !! i) as [child|] eqn:Hc; [|discriminate].
      destruct (renderNode_total customComponents child (childKey key i))
        as [o Hro].
      apply (keys_children _ _ _ _ Hr). exists i, child, o.
      repeat split; try assumption.
      assert (Hel : child ∈ childList node)
        by (apply list_elem_of_lookup; eauto).
      apply (IH child Hel _ _ Hro). exists p, m. now repeat split.
Qed.

Lemma extends_children (t1 t2 : MDCNode) :
  extends t1 t2 = true ->
  type t1 = type t2 /\
  forall i c1, childList t1 !! i = Some c1 ->
    exists c2, childList t2 !! i = Some c2 /\ extends c1 c2 = true.
Proof.
  destruct t1 as [ty nm ch v a d u o]. unfold childList at 1. simpl.
  intros H. apply andb_prop in H as [Ht Hc].
  split; [now apply String.eqb_eq|].
  destruct ch as [cs|]; [|intros i c1 Hi; discriminate Hi].
  revert Hc. generalize (childList t2). induction cs as [|c cs IHcs];
    intros cs2 Hc i c1 Hi; [discriminate Hi|].
  destruct cs2 as [|c2 cs2]; [discriminate Hc|].
  apply andb_prop in Hc as [Hc1 Hc2]. destruct i as [|i]; simpl in Hi.
  - injection Hi as <-. exists c2. now split.
  - apply (IHcs cs2 Hc2 i c1 Hi).
Qed.

Lemma extends_visit (p : list nat) :
  forall t1 t2 m1,
    extends t1 t2 = true -> visit t1 p = Some m1 ->
    exists m2, visit t2 p = Some m2 /\ type m1 = type m2.
Proof.
  induction p as [|i p IH]; intros t1 t2 m1 He Hv; simpl in *.
  - injection Hv as <-. exists t2. split; [reflexivity|].
    now apply extends_children.
  - destruct (extends_children t1 t2 He) as [Ht Hc]. rewrite <- Ht.
    destruct (rendersChildren (type t1)); [|discriminate].
    destruct (childList t1 !! i) as [c1|] eqn:Hc1; [|discriminate].
    destruct (Hc i c1 Hc1) as (c2 & -> & He2).
    apply (IH c1 c2 m1 He2 Hv).
Qed.

Lemma extendsKeyed_children customComponents (t1 t2 : MDCNode) :
  extendsKeyed customComponents t1 t2 = true ->
  type t1 = type t2 /\
  overrideKey customComponents t1 = overrideKey customComponents t2 /\
  forall i c1, childList t1 !! i = Some c1 ->
    exists c2, childList t2 !! i = Some c2 /\
      extendsKeyed customComponents c1 c2 = true.
Proof.
  destruct t1 as [ty nm ch v a d u o]. unfold childList at 1.
  cbn [extendsKeyed children type].
  intros H. apply andb_prop in H as [H Hc]. apply andb_prop in H as [Ht Ho].
  split; [now apply String.eqb_eq|].
  split; [now apply bool_decide_eq_true in Ho|]. clear Ht Ho.
  destruct ch as [cs|]; [|intros i c1 Hi; discriminate Hi].
  revert Hc. generalize (childList t2). induction cs as [|c cs IHcs];
    intros cs2 Hc i c1 Hi; [discriminate Hi|].
  destruct cs2 as [|c2 cs2]; [discriminate Hc|].
  apply andb_prop in Hc as [Hc1 Hc2]. destruct i as [|i]; simpl in Hi.
  - injection Hi as <-. exists c2. now split.
  - apply (IHcs cs2 Hc2 i c1 Hi).
Qed.

Lemma extendsKeyed_visit customComponents (p : list nat) :
  forall t1 t2 m1,
    extendsKeyed customComponents t1 t2 = true -> visit t1 p = Some m1 ->
    exists m2, visit t2 p = Some m2 /\ type m1 = type m2 /\
      overrideKey customComponents m1 = overrideKey customComponents m2.
Proof.
  induction p as [|i p IH]; intros t1 t2 m1 He Hv; simpl in *.
  - injection Hv as <-. exists t2. split; [reflexivity|].
    destruct (extendsKeyed_children _ t1 t2 He) as (Ht & Ho & _). now split.
  - destruct (extendsKeyed_children _ t1 t2 He) as (Ht & _ & Hc).
    rewrite <- Ht.
    destruct (rendersChildren (type t1)); [|discriminate].
    destruct (childList t1 !! i) as [c1|] eqn:Hc1; [|discriminate].
    destruct (Hc i c1 Hc1) as (c2 & -> & He2).
    apply (IH c1 c2 m1 He2 Hv).
Qed.

Lemma extendsKeyed_extends customComponents (t1 : MDCNode) :
  forall t2, extendsKeyed customComponents t1 t2 = true -> extends t1 t2 = true.
Proof.
  induction t1 as [t1 IH] using MDCNode_induction. intros t2 He.
  destruct (extendsKeyed_children _ t1 t2 He) as (Ht & _ & Hc). clear He.
  destruct t1 as [ty nm ch v a d u o]. cbn [extends type children].
  cbn [type] in Ht. rewrite Ht, String.eqb_refl. simpl.
  set (cs2 := childList t2) in *. clearbody cs2.
  unfold childList in IH, Hc. cbn [children] in IH, Hc.
  destruct ch as [cs|]; [|reflexivity]. clear Ht.
  revert cs2 IH Hc.
  induction cs as [|c cs IHcs]; intros cs2 IH Hc; [reflexivity|].
  destruct (Hc 0%nat c eq_refl) as (c2 & Hc2 & He2).
  destruct cs2 as [|c2' cs2]; [discriminate Hc2|].
  injection Hc2 as ->. inversion IH as [|? ? IHc IHrest]; subst.
  rewrite (IHc c2 He2). simpl. apply IHcs; [exact IHrest|].
  intros i c1 Hi. apply (Hc (S i) c1 Hi).
Qed.

Lemma keyFree_children (t : MDCNode) :
  keyFree t = true ->
  keyAttr t = None /\ Forall (fun c => keyFree c = true) (childList t).
Proof.
  destruct t as [ty nm ch v a d u o]. unfold childList.
  cbn [keyFree children]. intros H. apply andb_prop in H as [Hk Hc].
  split; [now apply bool_decide_eq_true in Hk|].
  destruct ch as [cs|]; [|constructor].
  apply Forall_forall. intros c Hin. rewrite forallb_forall in Hc.
  apply Hc. now apply list_elem_of_In.
Qed.

Lemma keyFree_elementKey customComponents (t : MDCNode) (key : string) :
  keyFree t = true -> elementKey customComponents t key = key.
Proof.
  intros H. apply keyFree_children in H as [Hk _].
  unfold elementKey, overrideKey. rewrite Hk.
  destruct (isComponentType (type t)); [|reflexivity].
  now destruct (match customComponents with
                | Some reg => getProperty reg (componentName t)
                | None => None
                end).
Qed.

Lemma keyFree_visit (p : list nat) :
  forall t m, keyFree t = true -> visit t p = Some m -> keyFree m = true.
Proof.
  induction p as [|i p IH]; intros t m Hf Hv; simpl in Hv.
  - now injection Hv as <-.
  - destruct (rendersChildren (type t)); [|discriminate].
    destruct (childList t !! i) as [c|] eqn:Hc; [|discriminate].
    apply keyFree_children in Hf as [_ Hf]. rewrite Forall_forall in Hf.
    apply (IH c m); [|exact Hv]. apply Hf.
    apply list_elem_of_lookup. eauto.
Qed.

(** C4, as the code has it: the walk gives each node the key of its parent
    with the node's index appended ([pathKey]), and [MDCRenderer] gives the
    root the key ["root"]; an element has the key given to its node,
    except the element of a registered component whose attributes hold a
    [key]: that element has the key of the attributes
    ([elementKey]), while the children of the node still get keys built
    on the key that was given. Hence the keys of the render of [t1] are
    keys in the render of [t2] when [t2] extends the shape of [t1] and the
    nodes at the same positions agree on such a key attribute
    ([extendsKeyed]), in particular when [t2] extends the shape of [t1]
    and neither tree has a [key] attribute. *)
Theorem keys_stable customComponents :
  (forall node key out,
     renderNode customComponents node key = Normal out ->
     forall k,
       In k (keys out) <->
       exists p m,
         visit node p = Some m /\ producesElement (type m) = true /\
         k = elementKey customComponents m (pathKey key p)) /\
  (forall node key,
     (overrideKey customComponents node = None ->
      elementKey customComponents node key = key) /\
     (forall k, overrideKey customComponents node = Some k ->
      elementKey customComponents node key = k)) /\
  (forall node key kids,
     renderChildren customComponents node key = Normal kids ->
     RenderedChildren customComponents node key kids) /\
  (forall body out,
     renderNode customComponents body "root" = Normal out ->
     renderState customComponents (Some body) None =
     Normal (RElement (Tag "div") None
               [Attr "className" (Some "mdc-content")] [out])) /\
  (forall t1 t2 key out1 out2,
     extendsKeyed customComponents t1 t2 = true ->
     renderNode customComponents t1 key = Normal out1 ->
     renderNode customComponents t2 key = Normal out2 ->
     forall k, In k (keys out1) -> In k (keys out2)) /\
  (forall t1 t2 key out1 out2,
     extends t1 t2 = true -> keyFree t1 = true -> keyFree t2 = true ->
     renderNode customComponents t1 key = Normal out1 ->
     renderNode customComponents t2 key = Normal out2 ->
     forall k, In k (keys out1) -> In k (keys out2)).
Proof.
  split; [|split; [|split; [|split; [|split]]]].
  - intros node key out H k. now apply (keys_visit customComponents).
  - intros node key. unfold elementKey. split.
    + now intros ->.
    + now intros k ->.
  - intros node key kids. apply renderChildren_spec.
  - intros body out H. simpl. now rewrite H.
  - intros t1 t2 key out1 out2 He H1 H2 k Hk.
    apply (keys_visit _ _ _ _ H1) in Hk as (p & m1 & Hv & Hp & ->).
    destruct (extendsKeyed_visit _ p t1 t2 m1 He Hv) as (m2 & Hv2 & Ht & Ho).
    apply (keys_visit _ _ _ _ H2). exists p, m2. rewrite <- Ht.
    split; [exact Hv2|]. split; [exact Hp|].
    unfold elementKey. now rewrite Ho.
  - intros t1 t2 key out1 out2 He Hf1 Hf2 H1 H2 k Hk.
    apply (keys_visit _ _ _ _ H1) in Hk as (p & m1 & Hv & Hp & ->).
    destruct (extends_visit p t1 t2 m1 He Hv) as (m2 & Hv2 & Ht).
    apply (keys_visit _ _ _ _ H2). exists p, m2. rewrite <- Ht.
    split; [exact Hv2|]. split; [exact Hp|].
    rewrite (keyFree_elementKey _ m1), (keyFree_elementKey _ m2);
      [reflexivity | |].
    + apply (keyFree_visit p t2 m2 Hf2 Hv2).
    + apply (keyFree_visit p t1 m1 Hf1 Hv).
Qed.

End Walk.

(** *** Concrete documents *)

Definition textNode (s : string) : @MDCNode string :=
  mkNode "text" None None (Some s) None None None None.

Definition parent (ty : string) (cs : list MDCNode) : @MDCNode string :=
  mkNode ty None (Some cs) None None None None None.

Definition container (nm : string) (attrs : gmap string string)
    (cs : list MDCNode) : @MDCNode string :=
  mkNode "containerComponent" (Some nm) (Some cs) None (Some attrs) None None
         None.

Definition heading (d : option Z) (cs : option (list MDCNode)) : @MDCNode string :=
  mkNode "heading" None cs None None d None None.

(** The concrete documents have string attribute values: such a value is
    never [undefined] and is its own key string. No name besides [key] is
    taken as reserved; the documents use none of the others. *)
Abbreviation render :=
  (@renderNode string Builtin asciiLower Some [] (Some mdcComponents)).

Abbreviation rendered :=
  (@RenderedChildren string Builtin asciiLower Some [] (Some mdcComponents)).

(** [::alert{type="warning"}] around the paragraph [Text]. *)
Example alert_scenario :
  render (container "alert" {[ "type" := "warning" ]}
            [parent "paragraph" [textNode "Text"]]) "root-0" =
  Normal
    (RElement (Component (Registered Alert)) (Some "root-0")
       [Spread {[ "type" := "warning" ]}]
       [RArray
          [RElement (Tag "p") (Some "root-0-0")
             [Attr "className" (Some "mb-4 leading-relaxed")]
             [RArray [RString "Text"]]]]).
Proof. vm_compute. reflexivity. Qed.

(** A component named [widget], which the registry does not know. *)
Example widget_scenario :
  render (container "widget" ∅ [parent "paragraph" [textNode "Text"]])
         "root-0" =
  Normal
    (RElement (Tag "div") (Some "root-0")
       [Attr "className"
          (Some "border border-dashed border-zinc-600 p-2 my-2 rounded")]
       [RElement (Tag "span") None
          [Attr "className" (Some "text-xs text-zinc-500")]
          [RString "Unknown component: "; RString "widget"];
        RElement (Tag "div") None []
          [RArray
             [RElement (Tag "p") (Some "root-0-0")
                [Attr "className" (Some "mb-4 leading-relaxed")]
                [RArray [RString "Text"]]]]]).
Proof. vm_compute. reflexivity. Qed.

(** A component block cut before its name and its content: no [name], no
    [children], no [attributes]. *)
Example truncated_component :
  render (mkNode "containerComponent" None None None None None None None)
         "root-0" =
  Normal
    (RElement (Tag "div") (Some "root-0")
       [Attr "className"
          (Some "border border-dashed border-zinc-600 p-2 my-2 rounded")]
       [RElement (Tag "span") None
          [Attr "className" (Some "text-xs text-zinc-500")]
          [RString "Unknown component: "; RUndefined];
        RElement (Tag "div") None [] [RUndefined]]).
Proof. vm_compute. reflexivity. Qed.

(** C3 on the code: the component name [constructor] has no entry in
    [mdcComponents], but the lookup [customComponents?.[componentName]]
    finds the property that the object literal inherits from
    [Object.prototype]; the branch for found components is taken, and the
    result is an element of that inherited value, not the placeholder: the
    name is nowhere in the result. *)
Theorem constructor_component_not_fallback :
  let node :=
    container "constructor" ∅ [parent "paragraph" [textNode "Text"]] in
  isComponentType (type node) = true /\
  mdcComponents !! componentName asciiLower node = None /\
  render node "root-0" =
  Normal
    (RElement (Component (Inherited "constructor")) (Some "root-0")
       [Spread ∅]
       [RArray
          [RElement (Tag "p") (Some "root-0-0")
             [Attr "className" (Some "mb-4 leading-relaxed")]
             [RArray [RString "Text"]]]]) /\
  forall out, render node "root-0" = Normal out ->
    ~ In "constructor" (texts out) /\
    ~ In "Unknown component: " (texts out).
Proof.
  repeat split; try (vm_compute; reflexivity).
  - vm_compute in H. injection H as <-. simpl. intros [E | []].
    discriminate E.
  - vm_compute in H. injection H as <-. simpl. intros [E | []].
    discriminate E.
Qed.

(** [::Alert{type="warning" key="x" children="c"}] around the paragraph
    [Text]. *)
Definition keyedAlert : @MDCNode string :=
  container "Alert" {[ "type" := "warning"; "key" := "x"; "children" := "c" ]}
    [parent "paragraph" [textNode "Text"]].

Lemma registered_component_dispatch_witness :
  let attrs := attributesOrEmpty keyedAlert in
  let special := ["children"; "key"] in
  (exists kids,
     rendered keyedAlert "root-0" kids /\
     render keyedAlert "root-0" =
     Normal (RElement (Component (Registered Alert))
               (Some (spreadKey Some keyedAlert "root-0"))
               [Spread (elementProps [] attrs)] [ofArray kids])) /\
  (forall k,
     elementProps [] attrs !! k =
     if bool_decide (k ∈ special) then None else attrs !! k) /\
  (forall v k,
     attrs !! "key" = Some v -> Some v = Some k ->
     spreadKey Some keyedAlert "root-0" = k) /\
  (attrs !! "key" = None -> spreadKey Some keyedAlert "root-0" = "root-0") /\
  ((forall k, k ∈ special -> attrs !! k = None) ->
   spreadKey Some keyedAlert "root-0" = "root-0" /\
   elementProps [] attrs = attrs).
Proof.
  apply (registered_component_dispatch asciiLower Some [] mdcComponents
           keyedAlert "root-0" Alert).
  - reflexivity.
  - vm_compute. reflexivity.
Defined.

(** C6 as stated fails: of the attributes [type], [key] and [children] of
    an alert only [type] arrives as a prop of the element; the [key]
    attribute has become the key of the element, in place of ["root-0"],
    and the [children] attribute is gone, the rendered paragraph being
    the child content. *)
Lemma attributes_not_passed_verbatim :
  isComponentType (type keyedAlert) = true /\
  mdcComponents !! componentName asciiLower keyedAlert = Some Alert /\
  attributes keyedAlert =
  Some {[ "type" := "warning"; "key" := "x"; "children" := "c" ]} /\
  render keyedAlert "root-0" =
  Normal
    (RElement (Component (Registered Alert)) (Some "x")
       [Spread {[ "type" := "warning" ]}]
       [RArray
          [RElement (Tag "p") (Some "root-0-0")
             [Attr "className" (Some "mb-4 leading-relaxed")]
             [RArray [RString "Text"]]]]) /\
  ({[ "type" := "warning" ]} : gmap string string) <>
  {[ "type" := "warning"; "key" := "x"; "children" := "c" ]}.
Proof.
  repeat split; try (vm_compute; reflexivity).
  intros H.
  assert (E : ({[ "type" := "warning" ]} : gmap string string) !! "key" =
              Some "x") by (rewrite H; vm_compute; reflexivity).
  vm_compute in E. discriminate E.
Qed.

Lemma heading_tiers_witness :
  let node := heading (Some 3%Z) (Some [textNode "Hi"]) in
  let d := depthOr1 (depth node) in
  (exists kids,
     rendered node "root-0" kids /\
     render node "root-0" =
     Normal (RElement (Tag (headingTag d)) (Some "root-0")
               [Attr "className" (sizes d)] [ofArray kids])) /\
  (depth node = None \/ depth node = Some 0%Z -> d = 1%Z) /\
  ((1 <= d <= 6)%Z ->
     headingTag d = "h" +:+ pretty d /\ is_Some (sizes d)) /\
  ((d < 1 \/ 6 < d)%Z -> headingTag d = "h6" /\ sizes d = None).
Proof.
  apply (heading_tiers asciiLower Some [] (Some mdcComponents)
           (heading (Some 3%Z) (Some [textNode "Hi"])) "root-0").
  reflexivity.
Defined.

(** C9 as stated fails: depth 7 renders an [h6] without the class of the
    sixth tier, and depth -1 renders an [h6], not the first tier; neither
    renders like the clamped depth. *)
Lemma heading_depth_not_clamped :
  render (heading (Some 7%Z) None) "root-0" =
  Normal (RElement (Tag "h6") (Some "root-0") [Attr "className" None]
            [RUndefined]) /\
  render (heading (Some (-1)%Z) None) "root-0" =
  Normal (RElement (Tag "h6") (Some "root-0") [Attr "className" None]
            [RUndefined]) /\
  spec_clampDepth 7 = 6%Z /\ spec_clampDepth (-1) = 1%Z /\
  render (heading (Some 7%Z) None) "root-0" <>
  render (heading (Some (spec_clampDepth 7)) None) "root-0" /\
  render (heading (Some (-1)%Z) None) "root-0" <>
  render (heading (Some (spec_clampDepth (-1))) None) "root-0".
Proof.
  repeat split; try (vm_compute; reflexivity);
    vm_compute; intros H; discriminate H.
Qed.

(** ["# Hi"] and the full document ["# Hi\n\nHello **world**"]. *)
Definition prefixTree : @MDCNode string :=
  parent "root" [heading (Some 1%Z) (Some [textNode "Hi"])].

Definition fullTree : @MDCNode string :=
  parent "root"
    [heading (Some 1%Z) (Some [textNode "Hi"]);
     parent "paragraph"
       [textNode "Hello "; parent "strong" [textNode "world"]]].

(** [::card{key="x"}] around the paragraph [Text], and the same block
    cut after its first character of content. *)
Definition keyedCard (txt : string) : @MDCNode string :=
  parent "root"
    [container "card" {[ "key" := "x" ]} [parent "paragraph" [textNode txt]]].

Lemma keys_stable_witness :
  (extendsKeyed asciiLower Some (Some mdcComponents)
     (keyedCard "T") (keyedCard "Text") = true /\
   exists out1 out2,
     render (keyedCard "T") "root" = Normal out1 /\
     render (keyedCard "Text") "root" = Normal out2 /\
     keys out1 = ["x"; "root-0-0"] /\
     forall k, In k (keys out1) -> In k (keys out2)) /\
  (extends prefixTree fullTree = true /\
   keyFree Some prefixTree = true /\ keyFree Some fullTree = true /\
   exists out1 out2,
     render prefixTree "root" = Normal out1 /\
     render fullTree "root" = Normal out2 /\
     keys out1 = ["root-0"] /\
     keys out2 = ["root-0"; "root-1"; "root-1-1"] /\
     forall k, In k (keys out1) -> In k (keys out2)).
Proof.
  destruct (@keys_stable string Builtin asciiLower Some []
              (Some mdcComponents)) as (_ & _ & _ & _ & Hkeyed & Hfree).
  split.
  - split; [vm_compute; reflexivity|].
    destruct (renderNode_total asciiLower Some [] (Some mdcComponents)
                (keyedCard "T") "root") as [out1 H1].
    destruct (renderNode_total asciiLower Some [] (Some mdcComponents)
                (keyedCard "Text") "root") as [out2 H2].
    exists out1, out2. split; [exact H1|]. split; [exact H2|]. split.
    + vm_compute in H1. injection H1 as <-. reflexivity.
    + apply (Hkeyed (keyedCard "T") (keyedCard "Text") "root" out1 out2);
        [vm_compute; reflexivity | exact H1 | exact H2].
  - split; [reflexivity|]. split; [vm_compute; reflexivity|].
    split; [vm_compute; reflexivity|].
    destruct (renderNode_total asciiLower Some [] (Some mdcComponents)
                prefixTree "root") as [out1 H1].
    destruct (renderNode_total asciiLower Some [] (Some mdcComponents)
                fullTree "root") as [out2 H2].
    exists out1, out2. split; [exact H1|]. split; [exact H2|].
    split; [|split].
    + vm_compute in H1. injection H1 as <-. reflexivity.
    + vm_compute in H2. injection H2 as <-. reflexivity.
    + apply (Hfree prefixTree fullTree "root" out1 out2);
        [reflexivity | vm_compute; reflexivity | vm_compute; reflexivity
        | exact H1 | exact H2].
Defined.

(** C4 as stated fails: a streamed document [::card] whose attributes
    arrive later ([::card{key="x"}]) keeps its shape, but the element of
    the card changes its key from ["root-0"] to ["x"], so the key
    ["root-0"] of the first render is no key of the second; and the key
    ["x"] is not the key of the parent with an index appended, while the
    paragraph below the card is keyed ["root-0-0"], not on the key of the
    card element. *)
Lemma key_attribute_replaces_path_key :
  let t1 :=
    parent "root" [container "card" ∅ [parent "paragraph" [textNode "Text"]]] in
  let t2 := keyedCard "Text" in
  extends t1 t2 = true /\
  exists out1 out2,
    render t1 "root" = Normal out1 /\
    render t2 "root" = Normal out2 /\
    keys out1 = ["root-0"; "root-0-0"] /\
    keys out2 = ["x"; "root-0-0"] /\
    In "root-0" (keys out1) /\ ~ In "root-0" (keys out2) /\
    forall i, "x" <> childKey "root" i.
Proof.
  split; [reflexivity|].
  eexists _, _. split; [vm_compute; reflexivity|].
  split; [vm_compute; reflexivity|].
  split; [reflexivity|]. split; [reflexivity|].
  split; [now left|]. split.
  - intros [E | [E | []]]; discriminate E.
  - intros i E. unfold childKey in E. discriminate E.
Qed.

End Renderer.

(** ** More on the streaming hook: how the operations compose *)

Module HookLaws.

Import RevealEngine.
Local Open Scope Z_scope.

(** Every scheduled handle was handed out by an earlier [setInterval], so
    the next [setInterval] returns a handle that is not scheduled. *)
Definition Fresh (e : Hook) : Prop :=
  forall h, In h (timers e) -> (h < nextTimer e)%nat.

(** The host fires the interval [h] once for each value in [rs]. *)
Definition ticks (h : nat) (rs : list Q) : list Op := map (Tick h) rs.

Section Laws.

Variable fullText : string.

Local Abbreviation len := (len fullText).
Local Abbreviation step := (step fullText).
Local Abbreviation Reachable := (Reachable fullText).

(** The operations applied in order to a given state. *)
Definition runFrom (e : Hook) (ops : list Op) : Hook := fold_left step ops e.

Lemma clearCurrent_timers (e : Hook) (h : nat) :
  In h (timers (clearCurrent e)) -> In h (timers e).
Proof.
  unfold clearCurrent. destruct (intervalRef e); simpl; [|tauto].
  rewrite filter_In. tauto.
Qed.

Lemma clearCurrent_nextTimer (e : Hook) :
  nextTimer (clearCurrent e) = nextTimer e.
Proof. unfold clearCurrent. now destruct (intervalRef e). Qed.

Lemma clearCurrent_Fresh (e : Hook) : Fresh e -> Fresh (clearCurrent e).
Proof.
  intros F h Hh. rewrite clearCurrent_nextTimer.
  apply F. now apply clearCurrent_timers.
Qed.

Lemma step_Fresh (e : Hook) (o : Op) : Fresh e -> Fresh (step e o).
Proof.
  intros F. pose proof (clearCurrent_Fresh e F) as Fc.
  destruct o as [| | | | | |h r]; simpl.
  - intros h [<- | Hh]; simpl in *.
    + rewrite clearCurrent_nextTimer. lia.
    + apply Fc in Hh. lia.
  - exact Fc.
  - unfold resume. destruct (isPaused e); [|exact F].
    intros h [<- | Hh]; simpl in *; [lia|]. apply F in Hh. lia.
  - exact Fc.
  - exact Fc.
  - exact Fc.
  - destruct (fires h e); [|exact F]. unfold intervalCallback.
    destruct (indexRef e <? len); [exact F | exact Fc].
Qed.

Lemma Reachable_Fresh (e : Hook) : Reachable e -> Fresh e.
Proof.
  induction 1 as [|e o _ IH _]; [intros h []|now apply step_Fresh].
Qed.

Lemma fires_In (h : nat) (e : Hook) : fires h e = true <-> In h (timers e).
Proof.
  unfold fires. rewrite existsb_exists. split.
  - intros (x & Hx & E). apply Nat.eqb_eq in E. now subst.
  - intros Hh. exists h. split; [exact Hh | apply Nat.eqb_refl].
Qed.

Lemma streaming_has_timer (e : Hook) :
  Reachable e -> Streaming e -> exists h, timers e = [h].
Proof.
  intros He [Hs Hp]. pose proof (Reachable_Inv fullText e He) as I.
  destruct (intervalRef e) as [h|] eqn:Eh.
  - exists h. rewrite (inv_timers _ _ I). now rewrite Eh.
  - exfalso. now apply (inv_streaming _ _ I Hs Hp).
Qed.

(** X1: in every reachable state at most one interval is scheduled, and it
    is the one whose handle [intervalRef] holds: an interval fires exactly
    when the ref holds its handle. *)
Theorem single_interval (e : Hook) :
  Reachable e ->
  (length (timers e) <= 1)%nat /\
  (forall h, fires h e = true <-> intervalRef e = Some h).
Proof.
  intros He. pose proof (inv_timers _ _ (Reachable_Inv fullText e He)) as Ht.
  split.
  - rewrite Ht. destruct (intervalRef e); simpl; lia.
  - intros h. rewrite fires_In, Ht. destruct (intervalRef e) as [h0|]; simpl.
    + split; [intros [-> | []]; reflexivity | intros [= ->]; now left].
    + split; [intros [] | discriminate].
Qed.

(** X2: [start()] from any reachable state restarts the reveal: nothing is
    revealed, the engine is Streaming, exactly one interval is scheduled,
    and no interval that was scheduled before fires any more. *)
Theorem start_restarts (e : Hook) :
  Reachable e ->
  let e' := step e Start in
  indexRef e' = 0 /\ streamedText e' = EmptyString /\ Streaming e' /\
  intervalRef e' = Some (nextTimer e) /\ timers e' = [nextTimer e] /\
  (forall h, fires h e = true -> fires h e' = false).
Proof.
  intros He e'. subst e'.
  pose proof (Reachable_Inv fullText e He) as I.
  pose proof (Reachable_Fresh e He) as F.
  change (step e Start) with (start e).
  unfold start. rewrite (stop_spec fullText e I). simpl.
  repeat split.
  intros h Hh. apply fires_In, F in Hh. unfold fires. simpl.
  destruct (Nat.eqb_spec h (nextTimer e)); [lia | reflexivity].
Qed.

(** X3: [pause()] then [resume()] while Streaming gives back the same
    reveal: the revealed length, the revealed text and the flags are those
    before the pause, one interval is scheduled again, under a new handle,
    and the interval of before the pause no longer fires. *)
Theorem pause_resume_round_trip (e : Hook) :
  Reachable e -> Streaming e ->
  let e' := step (step e Pause) Resume in
  indexRef e' = indexRef e /\ streamedText e' = streamedText e /\
  Streaming e' /\ timers e' = [nextTimer e] /\
  intervalRef e' = Some (nextTimer e) /\
  (forall h, fires h e = true -> fires h e' = false) /\
  (forall r,
     indexRef (step e' (Tick (nextTimer e) r)) =
     indexRef (intervalCallback fullText r e)).
Proof.
  intros He [Hs Hp] e'. subst e'.
  pose proof (Reachable_Inv fullText e He) as I.
  pose proof (Reachable_Fresh e He) as F.
  change (step (step e Pause) Resume) with (resume (pause e)).
  unfold pause, resume.
  rewrite (clearCurrent_spec e (inv_timers _ _ I)). simpl.
  repeat split; try assumption.
  - intros h Hh. apply fires_In, F in Hh. unfold fires. simpl.
    destruct (Nat.eqb_spec h (nextTimer e)); [lia | reflexivity].
  - intros r. unfold fires. simpl. rewrite Nat.eqb_refl. simpl.
    unfold intervalCallback. simpl.
    destruct (indexRef e <? len); [reflexivity|].
    unfold stop, clearCurrent. simpl. now destruct (intervalRef e).
Qed.

(** X4: [pause], [stop], [reset] and [complete] are idempotent, and of
    [reset] and [complete] the last one called decides the state. *)
Theorem operations_idempotent (e : Hook) :
  pause (pause e) = pause e /\ stop (stop e) = stop e /\
  reset (reset e) = reset e /\
  complete fullText (complete fullText e) = complete fullText e /\
  reset (complete fullText e) = reset e /\
  complete fullText (reset e) = complete fullText e.
Proof.
  unfold pause, reset, complete, stop, clearCurrent.
  destruct e as [t s p i [h|] ts n]; simpl; repeat split.
Qed.

(** X5: [start()] forgets what came before it: after any operation other
    than [start] and [resume] (which hand out a timer handle), and after
    any tick, [start()] gives the state that it gives without that step.
    In particular [reset()] followed by [start()] is [start()]. *)
Theorem start_forgets (e : Hook) (o : Op) :
  Reachable e -> o <> Start -> o <> Resume ->
  step (step e o) Start = step e Start.
Proof.
  intros He Hs Hr. pose proof (Reachable_Inv fullText e He) as I.
  pose proof (inv_timers _ _ I) as Ht.
  destruct o as [| | | | | |h r]; try congruence;
    cbn [RevealEngine.step];
    unfold start, pause, reset, complete, stop.
  - rewrite (clearCurrent_spec e Ht). reflexivity.
  - rewrite (clearCurrent_spec e Ht). reflexivity.
  - rewrite (clearCurrent_spec e Ht). reflexivity.
  - rewrite (clearCurrent_spec e Ht). reflexivity.
  - destruct (fires h e); [|reflexivity]. unfold intervalCallback.
    destruct (indexRef e <? len).
    + unfold clearCurrent. simpl. destruct (intervalRef e); reflexivity.
    + unfold stop. rewrite (clearCurrent_spec e Ht). reflexivity.
Qed.

(** The interval [h] is the one scheduled, or the reveal has ended and
    nothing is scheduled. *)
Definition Ticking (h : nat) (e : Hook) : Prop :=
  timers e = [h] \/
  (timers e = [] /\ indexRef e = len /\ isStreaming e = false /\
   isPaused e = false).

Lemma tick_Ticking (h : nat) (r : Q) (e : Hook) :
  Inv fullText e -> isRandom r -> Ticking h e ->
  let e' := step e (Tick h r) in
  Inv fullText e' /\ Ticking h e' /\
  (indexRef e < len ->
     Z.min (indexRef e + 1) len <= indexRef e' <= Z.min (indexRef e + 3) len) /\
  (len <= indexRef e -> indexRef e' = len /\ timers e' = []).
Proof.
  intros I Hr T e'. subst e'.
  split; [apply (step_Inv fullText e (Tick h r) I Hr)|].
  pose proof (inv_range _ _ I) as Hb.
  pose proof (chunkSize_range r Hr) as Hc.
  destruct T as [Ht | (Ht & Hi & Hs & Hp)].
  - rewrite (tick_scheduled fullText e h r Ht). unfold intervalCallback.
    destruct (Z.ltb_spec (indexRef e) len) as [Hlt|Hge].
    + simpl. repeat split; try lia. now left.
    + rewrite (stop_spec fullText e I). simpl.
      repeat split; try lia. right. simpl. repeat split; lia.
  - rewrite (tick_not_scheduled fullText e h r Ht).
    repeat split; try lia; try assumption. right. now repeat split.
Qed.

Lemma ticks_bounds (h : nat) (rs : list Q) :
  forall e,
    Inv fullText e -> Ticking h e -> Forall isRandom rs ->
    let e' := runFrom e (ticks h rs) in
    Inv fullText e' /\ Ticking h e' /\
    Z.min (indexRef e + Z.of_nat (length rs)) len <= indexRef e' /\
    indexRef e' <= Z.min (indexRef e + 3 * Z.of_nat (length rs)) len /\
    (len - indexRef e < Z.of_nat (length rs) -> timers e' = []).
Proof.
  induction rs as [|r rs IH]; intros e I T Hrs; cbv zeta.
  - pose proof (inv_range _ _ I). simpl.
    split; [exact I|]. split; [exact T|]. repeat split; lia.
  - inversion Hrs as [|r' rs' Hr Hrs']; subst.
    destruct (tick_Ticking h r e I Hr T) as (I1 & T1 & Hlt & Hge).
    destruct (IH _ I1 T1 Hrs') as (I2 & T2 & Hlo & Hhi & Hend).
    change (runFrom e (ticks h (r :: rs)))
      with (runFrom (step e (Tick h r)) (ticks h rs)).
    cbn [length]. rewrite Nat2Z.inj_succ.
    pose proof (inv_range _ _ I) as Hb.
    pose proof (inv_range _ _ I1) as Hb1.
    pose proof (inv_range _ _ I2) as Hb2.
    split; [exact I2|]. split; [exact T2|]. split; [|split].
    + destruct (Z.ltb_spec (indexRef e) len) as [H|H]; [|lia].
      specialize (Hlt H). lia.
    + destruct (Z.ltb_spec (indexRef e) len) as [H|H].
      * specialize (Hlt H). lia.
      * destruct (Hge H) as [Hi _]. lia.
    + intros Hn. destruct (Z.ltb_spec (indexRef e) len) as [H|H].
      * specialize (Hlt H). apply Hend. lia.
      * destruct (Hge H) as [Hi Ht1].
        destruct T2 as [T2 | (T2 & _)]; [|exact T2].
        clear - Ht1 T2. exfalso. revert Ht1 T2.
        generalize (step e (Tick h r)). induction rs as [|r0 rs IHrs];
          intros e0 Ht1 T2; [simpl in T2; congruence|].
        change (runFrom e0 (ticks h (r0 :: rs)))
          with (runFrom (step e0 (Tick h r0)) (ticks h rs)) in T2.
        rewrite (tick_not_scheduled fullText e0 h r0 Ht1) in T2.
        now apply (IHrs e0).
Qed.

(** X6: a reveal that is Streaming at revealed length [i] has, after [n]
    ticks, a revealed length between [min (i + n) len] and
    [min (i + 3 n) len]: each tick reveals at least one and at most three
    more characters until the document is exhausted. *)
Theorem ticks_reveal_between (e : Hook) (rs : list Q) :
  Reachable e -> Streaming e -> Forall isRandom rs ->
  exists h, timers e = [h] /\
    let e' := runFrom e (ticks h rs) in
    Z.min (indexRef e + Z.of_nat (length rs)) len <= indexRef e' /\
    indexRef e' <= Z.min (indexRef e + 3 * Z.of_nat (length rs)) len.
Proof.
  intros He Hs Hrs. pose proof (Reachable_Inv fullText e He) as I.
  destruct (streaming_has_timer e He Hs) as [h Ht].
  exists h. split; [exact Ht|].
  destruct (ticks_bounds h rs e I (or_introl Ht) Hrs) as (_ & _ & Hlo & Hhi & _).
  now split.
Qed.

(** X7: a Streaming reveal always ends: after more ticks than characters
    are left to reveal, the whole document is revealed, the engine is
    Complete and no interval is scheduled. *)
Theorem streaming_completes (e : Hook) (rs : list Q) :
  Reachable e -> Streaming e -> Forall isRandom rs ->
  len - indexRef e < Z.of_nat (length rs) ->
  exists h, timers e = [h] /\
    let e' := runFrom e (ticks h rs) in
    Completed fullText e' /\ streamedText e' = fullText /\ timers e' = [].
Proof.
  intros He Hs Hrs Hn. pose proof (Reachable_Inv fullText e He) as I.
  destruct (streaming_has_timer e He Hs) as [h Ht].
  exists h. split; [exact Ht|].
  destruct (ticks_bounds h rs e I (or_introl Ht) Hrs)
    as (I' & T' & Hlo & Hhi & Hend).
  specialize (Hend Hn). cbv zeta.
  destruct T' as [T' | (_ & Hi & Hs' & Hp')]; [congruence|].
  repeat split; try assumption.
  rewrite (inv_text _ _ I'), Hi. apply slice_0_len.
Qed.

Lemma prefix_substring (s : string) :
  forall n m, (n <= m)%nat ->
    String.prefix (substring 0 n s) (substring 0 m s) = true.
Proof.
  induction s as [|c s IH]; intros [|n] [|m] H; simpl; try reflexivity;
    try lia.
  destruct (Ascii.ascii_dec c c) as [_|Hc]; [|congruence].
  apply IH. lia.
Qed.

Lemma prefix_slice (i j : Z) :
  0 <= i <= j -> j <= len ->
  String.prefix (slice fullText 0 i) (slice fullText 0 j) = true.
Proof.
  intros Hi Hj. rewrite !slice_0_spec by lia. apply prefix_substring. lia.
Qed.

(** X8: what is revealed is always a leading part of the document, and a
    tick only extends it: the text before the tick is a leading part of the
    text after it. *)
Theorem revealed_text_is_prefix (e : Hook) (h : nat) (r : Q) :
  Reachable e -> isRandom r ->
  String.prefix (streamedText e) fullText = true /\
  String.prefix (streamedText e) (streamedText (step e (Tick h r))) = true.
Proof.
  intros He Hr. pose proof (Reachable_Inv fullText e He) as I.
  pose proof (step_Inv fullText e (Tick h r) I Hr) as I'.
  pose proof (inv_range _ _ I) as Hb. pose proof (inv_range _ _ I') as Hb'.
  assert (Hm : indexRef e <= indexRef (step e (Tick h r))).
  { simpl. destruct (fires h e); [|lia].
    apply (intervalCallback_range fullText r e Hr Hb). }
  rewrite (inv_text _ _ I'), (inv_text _ _ I). split.
  - rewrite <- (slice_0_len fullText) at 2. apply prefix_slice; lia.
  - apply prefix_slice; lia.
Qed.

Lemma percent_le (i j n : Z) :
  0 < n -> i <= j ->
  (inject_Z i / inject_Z n * 100 <= inject_Z j / inject_Z n * 100)%Q.
Proof.
  intros Hn Hij. destruct n as [|p|p]; try lia.
  unfold Qle, Qdiv, Qmult, Qinv, inject_Z. simpl. nia.
Qed.

(** X9: [progress] never decreases across a tick, and [pause()] leaves it
    as it is. *)
Theorem progress_monotone (e : Hook) (h : nat) (r : Q) :
  Reachable e -> isRandom r ->
  (progress fullText e <= progress fullText (step e (Tick h r)))%Q /\
  progress fullText (step e Pause) = progress fullText e.
Proof.
  intros He Hr. pose proof (Reachable_Inv fullText e He) as I.
  pose proof (inv_range _ _ I) as Hb.
  assert (Hm : indexRef e <= indexRef (step e (Tick h r))).
  { simpl. destruct (fires h e); [|lia].
    apply (intervalCallback_range fullText r e Hr Hb). }
  split.
  - unfold progress. destruct (Z.ltb_spec 0 len) as [Hn|Hn].
    + now apply percent_le.
    + apply Qle_refl.
  - unfold progress. simpl. unfold pause, clearCurrent.
    destruct (intervalRef e); reflexivity.
Qed.

(** The cleanup of the [useEffect] of the hook, run when the component
    unmounts: [if (intervalRef.current) clearInterval(intervalRef.current)];
    the ref keeps its value. *)
Definition cleanup (e : Hook) : Hook :=
  match intervalRef e with
  | Some h => clearInterval h e
  | None => e
  end.

(** X24: unmounting leaks no timer: after the cleanup of the hook no
    interval is scheduled, so no tick changes the state any more, and the
    cells of the hook are as they were. *)
Theorem cleanup_cancels_interval (e : Hook) :
  Reachable e ->
  timers (cleanup e) = [] /\
  (forall h r, step (cleanup e) (Tick h r) = cleanup e) /\
  streamedText (cleanup e) = streamedText e /\
  indexRef (cleanup e) = indexRef e /\
  isStreaming (cleanup e) = isStreaming e /\
  isPaused (cleanup e) = isPaused e.
Proof.
  intros He. pose proof (inv_timers _ _ (Reachable_Inv fullText e He)) as Ht.
  assert (Hc : timers (cleanup e) = []).
  { unfold cleanup. destruct (intervalRef e) as [h|]; [|exact Ht].
    simpl. rewrite Ht. simpl. now rewrite Nat.eqb_refl. }
  split; [exact Hc|]. split.
  - intros h r. now apply tick_not_scheduled.
  - unfold cleanup. destruct (intervalRef e); repeat split.
Qed.

End Laws.

(** *** Concrete runs *)

Lemma cleanup_cancels_interval_witness :
  let e := run "ab" [Start; Tick 1 (1 # 2)] in
  timers (cleanup e) = [] /\
  (forall h r, step "ab" (cleanup e) (Tick h r) = cleanup e) /\
  streamedText (cleanup e) = streamedText e /\
  indexRef (cleanup e) = indexRef e /\
  isStreaming (cleanup e) = isStreaming e /\
  isPaused (cleanup e) = isPaused e.
Proof.
  apply (cleanup_cancels_interval "ab" (run "ab" [Start; Tick 1 (1 # 2)])).
  apply run_Reachable. repeat constructor; first [reflexivity | vm_compute; discriminate].
Defined.

Lemma single_interval_witness :
  (length (timers (run "ab" [Start; Pause; Resume])) <= 1)%nat /\
  (forall h, fires h (run "ab" [Start; Pause; Resume]) = true <->
             intervalRef (run "ab" [Start; Pause; Resume]) = Some h).
Proof.
  apply (single_interval "ab" (run "ab" [Start; Pause; Resume])).
  apply run_Reachable. repeat constructor.
Defined.

Lemma start_restarts_witness :
  let e := run "ab" [Start; Tick 1 (1 # 2)] in
  let e' := step "ab" e Start in
  indexRef e' = 0 /\ streamedText e' = EmptyString /\ Streaming e' /\
  intervalRef e' = Some (nextTimer e) /\ timers e' = [nextTimer e] /\
  (forall h, fires h e = true -> fires h e' = false).
Proof.
  apply (start_restarts "ab" (run "ab" [Start; Tick 1 (1 # 2)])).
  apply run_Reachable. repeat constructor; first [reflexivity | vm_compute; discriminate].
Defined.

Lemma pause_resume_round_trip_witness :
  let e := run "abc" [Start; Tick 1 (1 # 2)] in
  let e' := step "abc" (step "abc" e Pause) Resume in
  indexRef e' = indexRef e /\ streamedText e' = streamedText e /\
  Streaming e' /\ timers e' = [nextTimer e] /\
  intervalRef e' = Some (nextTimer e) /\
  (forall h, fires h e = true -> fires h e' = false) /\
  (forall r,
     indexRef (step "abc" e' (Tick (nextTimer e) r)) =
     indexRef (intervalCallback "abc" r e)).
Proof.
  apply (pause_resume_round_trip "abc" (run "abc" [Start; Tick 1 (1 # 2)])).
  - apply run_Reachable. repeat constructor; first [reflexivity | vm_compute; discriminate].
  - split; reflexivity.
Defined.

Lemma start_forgets_witness :
  step "ab" (step "ab" (run "ab" [Start; Tick 1 (1 # 2)]) Reset) Start =
  step "ab" (run "ab" [Start; Tick 1 (1 # 2)]) Start.
Proof.
  apply (start_forgets "ab" (run "ab" [Start; Tick 1 (1 # 2)]) Reset).
  - apply run_Reachable. repeat constructor; first [reflexivity | vm_compute; discriminate].
  - discriminate.
  - discriminate.
Defined.

Lemma ticks_reveal_between_witness :
  exists h, timers (run "abcdefghij" [Start]) = [h] /\
    let e' := runFrom "abcdefghij" (run "abcdefghij" [Start])
                (ticks h [(1 # 2)%Q; 0%Q; (9 # 10)%Q]) in
    Z.min (indexRef (run "abcdefghij" [Start]) + 3) 10 <= indexRef e' /\
    indexRef e' <= Z.min (indexRef (run "abcdefghij" [Start]) + 3 * 3) 10.
Proof.
  apply (ticks_reveal_between "abcdefghij" (run "abcdefghij" [Start])
           [(1 # 2)%Q; 0%Q; (9 # 10)%Q]).
  - apply run_Reachable. repeat constructor.
  - split; reflexivity.
  - repeat constructor; first [reflexivity | vm_compute; discriminate].
Defined.

Lemma streaming_completes_witness :
  exists h, timers (run "ab" [Start]) = [h] /\
    let e' := runFrom "ab" (run "ab" [Start]) (ticks h [0%Q; 0%Q; 0%Q]) in
    Completed "ab" e' /\ streamedText e' = "ab"%string /\ timers e' = [].
Proof.
  apply (streaming_completes "ab" (run "ab" [Start]) [0%Q; 0%Q; 0%Q]).
  - apply run_Reachable. repeat constructor.
  - split; reflexivity.
  - repeat constructor; first [reflexivity | vm_compute; discriminate].
  - reflexivity.
Defined.

Lemma revealed_text_is_prefix_witness :
  let e := run "abc" [Start; Tick 1 (1 # 2)] in
  String.prefix (streamedText e) "abc" = true /\
  String.prefix (streamedText e)
    (streamedText (step "abc" e (Tick 1 (1 # 2)))) = true.
Proof.
  apply (revealed_text_is_prefix "abc" (run "abc" [Start; Tick 1 (1 # 2)])
           1%nat (1 # 2)).
  - apply run_Reachable. repeat constructor; first [reflexivity | vm_compute; discriminate].
  - split; [vm_compute; discriminate | vm_compute; discriminate].
Defined.

Lemma progress_monotone_witness :
  let e := run "abc" [Start; Tick 1 (1 # 2)] in
  (progress "abc" e <= progress "abc" (step "abc" e (Tick 1 (1 # 2))))%Q /\
  progress "abc" (step "abc" e Pause) = progress "abc" e.
Proof.
  apply (progress_monotone "abc" (run "abc" [Start; Tick 1 (1 # 2)])
           1%nat (1 # 2)).
  - apply run_Reachable. repeat constructor; first [reflexivity | vm_compute; discriminate].
  - split; [vm_compute; discriminate | vm_compute; discriminate].
Defined.

End HookLaws.

(** ** The [App] component: the controls around the hook *)

Module AppShell.

Import RevealEngine.
Local Open Scope Z_scope.

(** ['mdc' | 'streamdown'] *)
Inductive Tab := mdc | streamdown.

(** The keys of [SPEEDS]. *)
Inductive SpeedKey := slow | normal | fast.

(** [SPEEDS]: the interval period in milliseconds. *)
Definition SPEEDS (k : SpeedKey) : Z :=
  match k with
  | slow => 30
  | normal => 15
  | fast => 5
  end.

(** The state of [App]: its three state cells, the cells of its
    [useStreamingText(mdcContent, SPEEDS[speed])], and for every interval
    that was scheduled the document and the period that its callback
    closed over. *)
Record App := mkApp {
  activeTab : Tab;
  mdcContent : string;
  speed : SpeedKey;
  hook : Hook;
  closures : list (nat * (string * Z))
}.

(** What the user and the host can do. *)
Inductive Event :=
| ClickStart | ClickPause | ClickResume | ClickComplete | ClickReset
| ChangeTab (t : Tab)
| ChangeSpeed (k : SpeedKey)
| EditContent (s : string)
| Interval (h : nat) (r : Q).

(** A string is truthy when it is not empty. *)
Definition truthyString (s : string) : bool :=
  match s with EmptyString => false | String _ _ => true end.

(** The conditions under which [App] renders its controls. *)
Definition showStart (a : App) : bool :=
  negb (isStreaming (hook a)) && negb (isPaused (hook a)).

Definition showPause (a : App) : bool :=
  isStreaming (hook a) && negb (isPaused (hook a)).

Definition showResume (a : App) : bool := isPaused (hook a).

Definition showCompleteReset (a : App) : bool :=
  isStreaming (hook a) || isPaused (hook a)
  || truthyString (streamedText (hook a)).

(** [disabled={isStreaming}] on the speed selector. *)
Definition speedEnabled (a : App) : bool := negb (isStreaming (hook a)).

Definition showProgress (a : App) : bool :=
  isStreaming (hook a) || isPaused (hook a).

(** An event can happen when its control is rendered and enabled; the tabs
    and the editor always are, and the host fires only scheduled
    intervals. *)
Definition available (a : App) (ev : Event) : bool :=
  match ev with
  | ClickStart => showStart a
  | ClickPause => showPause a
  | ClickResume => showResume a
  | ClickComplete | ClickReset => showCompleteReset a
  | ChangeSpeed _ => speedEnabled a
  | ChangeTab _ | EditContent _ => true
  | Interval h _ => fires h (hook a)
  end.

(** The hook after an operation of the current render, with the closure of
    the interval recorded if the operation scheduled one. *)
Definition withHook (a : App) (e' : Hook) : App :=
  mkApp (activeTab a) (mdcContent a) (speed a) e'
        (if Nat.eqb (nextTimer e') (nextTimer (hook a)) then closures a
         else (nextTimer (hook a), (mdcContent a, SPEEDS (speed a)))
                :: closures a).

Definition closureOf (a : App) (h : nat) : option (string * Z) :=
  snd <$> List.find (fun c => Nat.eqb (fst c) h) (closures a).

(** [handleTabChange]: [reset(); setActiveTab(tab)]. *)
Definition handleTabChange (t : Tab) (a : App) : App :=
  mkApp t (mdcContent a) (speed a) (reset (hook a)) (closures a).

(** The [onChange] of the editor: [setMdcContent(e.target.value); reset()]. *)
Definition onContentChange (s : string) (a : App) : App :=
  mkApp (activeTab a) s (speed a) (reset (hook a)) (closures a).

(** The [onChange] of the speed selector. *)
Definition onSpeedChange (k : SpeedKey) (a : App) : App :=
  mkApp (activeTab a) (mdcContent a) k (hook a) (closures a).

(** An interval fires: its callback runs with the document it closed
    over. *)
Definition onInterval (h : nat) (r : Q) (a : App) : App :=
  if fires h (hook a) then
    match closureOf a h with
    | Some (text, _) => withHook a (intervalCallback text r (hook a))
    | None => a
    end
  else a.

Definition handle (a : App) (ev : Event) : App :=
  match ev with
  | ClickStart => withHook a (start (hook a))
  | ClickPause => withHook a (pause (hook a))
  | ClickResume => withHook a (resume (hook a))
  | ClickComplete => withHook a (complete (mdcContent a) (hook a))
  | ClickReset => withHook a (reset (hook a))
  | ChangeTab t => handleTabChange t a
  | ChangeSpeed k => onSpeedChange k a
  | EditContent s => onContentChange s a
  | Interval h r => onInterval h r a
  end.

Definition validEvent (ev : Event) : Prop :=
  match ev with
  | Interval _ r => isRandom r
  | _ => True
  end.

Section Shell.

(** [mdcExample], the document that the editor starts with. *)
Variable mdcExample : string.

Definition initial : App := mkApp mdc mdcExample normal init [].

(** The states that the rendered controls allow to reach. *)
Inductive UIReachable : App -> Prop :=
| ui_initial : UIReachable initial
| ui_handle a ev :
    UIReachable a -> available a ev = true -> validEvent ev ->
    UIReachable (handle a ev).

Definition session (evs : list Event) : App := fold_left handle evs initial.

End Shell.

(** What the controls maintain. *)
Record Shown (a : App) : Prop := mkShown {
  shown_inv : Inv (mdcContent a) (hook a);
  shown_paused : isPaused (hook a) = true -> isStreaming (hook a) = true;
  shown_idle :
    isStreaming (hook a) = false -> intervalRef (hook a) = None;
  shown_closure :
    forall h, intervalRef (hook a) = Some h ->
      closureOf a h = Some (mdcContent a, SPEEDS (speed a))
}.

Lemma closureOf_new (a : App) (e' : Hook) :
  nextTimer e' <> nextTimer (hook a) ->
  closureOf (withHook a e') (nextTimer (hook a)) =
  Some (mdcContent a, SPEEDS (speed a)).
Proof.
  intros Hn. unfold closureOf, withHook. simpl.
  destruct (Nat.eqb_spec (nextTimer e') (nextTimer (hook a))); [congruence|].
  simpl. now rewrite Nat.eqb_refl.
Qed.

Lemma closureOf_same (a : App) (e' : Hook) (h : nat) :
  nextTimer e' = nextTimer (hook a) ->
  closureOf (withHook a e') h = closureOf a h.
Proof.
  intros Hn. unfold closureOf, withHook. simpl.
  now rewrite Hn, Nat.eqb_refl.
Qed.

Lemma reset_Inv (s : string) (e : Hook) :
  timers e = match intervalRef e with Some h => [h] | None => [] end ->
  Inv s (reset e).
Proof.
  intros Ht. unfold reset, stop. rewrite (clearCurrent_spec e Ht).
  constructor; simpl; try reflexivity; try discriminate.
  - unfold len. lia.
  - now rewrite slice_0_0.
Qed.

Lemma fires_intervalRef (s : string) (e : Hook) (h : nat) :
  Inv s e -> fires h e = true -> intervalRef e = Some h /\ timers e = [h].
Proof.
  intros I Hf. pose proof (inv_timers _ _ I) as Ht.
  unfold fires in Hf. rewrite Ht in *.
  destruct (intervalRef e) as [h0|]; simpl in Hf; [|discriminate].
  rewrite orb_false_r in Hf. apply Nat.eqb_eq in Hf. now subst.
Qed.

Lemma withHook_Shown (a : App) (e' : Hook) :
  Shown a -> Inv (mdcContent a) e' ->
  (isPaused e' = true -> isStreaming e' = true) ->
  (isStreaming e' = false -> intervalRef e' = None) ->
  (forall h, intervalRef e' = Some h ->
     (nextTimer e' = nextTimer (hook a) /\ intervalRef (hook a) = Some h) \/
     (nextTimer e' <> nextTimer (hook a) /\ h = nextTimer (hook a))) ->
  Shown (withHook a e').
Proof.
  intros [I Hp Hi Hc] I' Hp' Hi' Hc'. constructor; try assumption.
  intros h Hh.
  change (closureOf (withHook a e') h = Some (mdcContent a, SPEEDS (speed a))).
  destruct (Hc' h Hh) as [[Hn Hr] | [Hn ->]].
  - rewrite closureOf_same by exact Hn. now apply Hc.
  - now apply closureOf_new.
Qed.

Lemma handle_Shown (a : App) (ev : Event) :
  Shown a -> available a ev = true -> validEvent ev -> Shown (handle a ev).
Proof.
  intros S Hav Hv. pose proof S as [I Hp Hi Hc].
  pose proof (inv_timers _ _ I) as Ht.
  pose proof (clearCurrent_spec (hook a) Ht) as Hcc.
  pose proof (stop_spec (mdcContent a) (hook a) I) as Hst.
  destruct ev as [| | | | |t|k|s|h r]; cbn [handle available] in *.
  - apply withHook_Shown; try assumption.
    + apply (step_Inv (mdcContent a) (hook a) Start I Logic.I).
    + unfold start. rewrite Hst. discriminate.
    + unfold start. rewrite Hst. discriminate.
    + unfold start. rewrite Hst. simpl. intros h [= <-]. right.
      split; [lia | reflexivity].
  - apply andb_prop in Hav as [Hs _]. apply withHook_Shown; try assumption.
    + apply (step_Inv (mdcContent a) (hook a) Pause I Logic.I).
    + unfold pause. rewrite Hcc. intros _. exact Hs.
    + unfold pause. rewrite Hcc. simpl. congruence.
    + unfold pause. rewrite Hcc. discriminate.
  - unfold showResume in Hav. apply withHook_Shown; try assumption.
    + apply (step_Inv (mdcContent a) (hook a) Resume I Logic.I).
    + unfold resume. rewrite Hav. discriminate.
    + unfold resume. rewrite Hav. simpl. intros Hs.
      rewrite (Hp Hav) in Hs. discriminate.
    + unfold resume. rewrite Hav. simpl. intros h [= <-]. right.
      split; [lia | reflexivity].
  - apply withHook_Shown; try assumption.
    + apply (step_Inv (mdcContent a) (hook a) Complete I Logic.I).
    + unfold complete. rewrite Hst. discriminate.
    + unfold complete. rewrite Hst. reflexivity.
    + unfold complete. rewrite Hst. discriminate.
  - apply withHook_Shown; try assumption.
    + apply (step_Inv (mdcContent a) (hook a) Reset I Logic.I).
    + unfold reset. rewrite Hst. discriminate.
    + unfold reset. rewrite Hst. reflexivity.
    + unfold reset. rewrite Hst. discriminate.
  - unfold handleTabChange.
    constructor; cbn [hook mdcContent speed closures activeTab].
    + now apply reset_Inv.
    + unfold reset. rewrite Hst. discriminate.
    + unfold reset. rewrite Hst. reflexivity.
    + unfold reset. rewrite Hst. discriminate.
  - unfold speedEnabled in Hav. apply negb_true_iff in Hav.
    unfold onSpeedChange.
    constructor; cbn [hook mdcContent speed closures activeTab];
      try assumption.
    intros h Hh. rewrite (Hi Hav) in Hh. discriminate.
  - unfold onContentChange.
    constructor; cbn [hook mdcContent speed closures activeTab].
    + now apply reset_Inv.
    + unfold reset. rewrite Hst. discriminate.
    + unfold reset. rewrite Hst. reflexivity.
    + unfold reset. rewrite Hst. discriminate.
  - unfold onInterval. rewrite Hav.
    destruct (fires_intervalRef _ _ h I Hav) as [Hr Hth].
    rewrite (Hc h Hr).
    pose proof (step_Inv (mdcContent a) (hook a) (Tick h r) I Hv) as I'.
    cbn [step] in I'. rewrite Hav in I'.
    apply withHook_Shown; try assumption; unfold intervalCallback;
      destruct (indexRef (hook a) <? len (mdcContent a));
      try rewrite Hst; simpl; try assumption; try discriminate;
      try reflexivity.
    intros h' Hh'. left. now split.
Qed.

Section ShellFacts.

Variable mdcExample : string.

Local Abbreviation UIReachable := (UIReachable mdcExample).

Lemma initial_Shown : Shown (initial mdcExample).
Proof.
  constructor; simpl; try discriminate; try reflexivity.
  apply init_Inv.
Qed.

Lemma UIReachable_Shown (a : App) : UIReachable a -> Shown a.
Proof.
  induction 1 as [|a ev _ IH Hav Hv];
    [apply initial_Shown | now apply handle_Shown].
Qed.

(** X10: in every state exactly one of the Start, Pause and Resume
    buttons is rendered. *)
Theorem one_primary_button (a : App) :
  (showStart a = true /\ showPause a = false /\ showResume a = false) \/
  (showStart a = false /\ showPause a = true /\ showResume a = false) \/
  (showStart a = false /\ showPause a = false /\ showResume a = true).
Proof.
  unfold showStart, showPause, showResume.
  destruct (isStreaming (hook a)), (isPaused (hook a)); simpl; tauto.
Qed.

(** X11: in the states that the controls allow to reach, an interval is
    scheduled exactly when the Pause button is rendered (the engine is
    Streaming); when Resume is rendered the reveal is paused with
    [isStreaming] still set and nothing scheduled; when Start is rendered
    nothing is scheduled. So [pause()] is only ever called on a Streaming
    engine and [resume()] resumes a reveal that was started. *)
Theorem controls_match_interval (a : App) :
  UIReachable a ->
  (showPause a = true <->
     exists h, intervalRef (hook a) = Some h /\ timers (hook a) = [h]) /\
  (showResume a = true ->
     isStreaming (hook a) = true /\ timers (hook a) = []) /\
  (showStart a = true -> timers (hook a) = []).
Proof.
  intros Ha. destruct (UIReachable_Shown a Ha) as [I Hp Hi Hc].
  pose proof (inv_timers _ _ I) as Ht.
  unfold showPause, showResume, showStart. repeat split.
  - intros H. apply andb_prop in H as [Hs Hn]. apply negb_true_iff in Hn.
    destruct (intervalRef (hook a)) as [h|] eqn:E.
    + exists h. now split.
    + exfalso. now apply (inv_streaming _ _ I Hs Hn).
  - intros (h & Hr & _).
    destruct (isStreaming (hook a)) eqn:Hs;
      [|rewrite (Hi eq_refl) in Hr; discriminate].
    destruct (isPaused (hook a)) eqn:Hq; [|reflexivity].
    rewrite (inv_paused _ _ I Hq) in Hr. discriminate.
  - now apply Hp.
  - rewrite Ht. now rewrite (inv_paused _ _ I H).
  - intros H. apply andb_prop in H as [Hs _]. apply negb_true_iff in Hs.
    rewrite Ht. now rewrite (Hi Hs).
Qed.

(** X12: an interval that fires runs with the document and the period of
    the current render: its callback closed over the text that the editor
    holds now, so the tick is the tick of the hook on the current
    document. No tick reveals text of a document that was edited away. *)
Theorem interval_uses_current_document (a : App) (h : nat) (r : Q) :
  UIReachable a -> available a (Interval h r) = true ->
  closureOf a h = Some (mdcContent a, SPEEDS (speed a)) /\
  hook (handle a (Interval h r)) = step (mdcContent a) (hook a) (Tick h r).
Proof.
  intros Ha Hav. destruct (UIReachable_Shown a Ha) as [I Hp Hi Hc].
  cbn [available] in Hav.
  destruct (fires_intervalRef _ _ h I Hav) as [Hr _].
  split; [now apply Hc|].
  cbn [handle step]. unfold onInterval. rewrite Hav, (Hc h Hr). reflexivity.
Qed.

(** X13: in the states that the controls allow to reach, the revealed text
    is a leading part of the text in the editor, also after edits, and its
    length is the revealed length, which lies between 0 and the length of
    that text. *)
Theorem preview_is_prefix (a : App) :
  UIReachable a ->
  String.prefix (streamedText (hook a)) (mdcContent a) = true /\
  Z.of_nat (String.length (streamedText (hook a))) = indexRef (hook a) /\
  0 <= indexRef (hook a) <= len (mdcContent a).
Proof.
  intros Ha. destruct (UIReachable_Shown a Ha) as [I _ _ _].
  pose proof (inv_range _ _ I) as Hb. rewrite (inv_text _ _ I).
  split; [|split; [now apply length_slice_0 | exact Hb]].
  rewrite <- (slice_0_len (mdcContent a)) at 2.
  apply HookLaws.prefix_slice; lia.
Qed.

End ShellFacts.

(** *** A concrete session *)

Lemma session_reachable :
  UIReachable "ab"
    (session "ab" [ClickStart; Interval 1 (1 # 2); EditContent "xyz";
                   ClickStart]).
Proof.
  unfold session. cbn [fold_left].
  repeat (apply ui_handle;
          [ | reflexivity
            | first [exact Logic.I | split; [vm_compute; discriminate | vm_compute; discriminate]] ]).
  apply ui_initial.
Qed.

Lemma controls_match_interval_witness :
  let a := session "ab" [ClickStart; Interval 1 (1 # 2); EditContent "xyz";
                         ClickStart] in
  (showPause a = true <->
     exists h, intervalRef (hook a) = Some h /\ timers (hook a) = [h]) /\
  (showResume a = true ->
     isStreaming (hook a) = true /\ timers (hook a) = []) /\
  (showStart a = true -> timers (hook a) = []).
Proof.
  apply (controls_match_interval "ab"). apply session_reachable.
Defined.

Lemma interval_uses_current_document_witness :
  let a := session "ab" [ClickStart; Interval 1 (1 # 2); EditContent "xyz";
                         ClickStart] in
  closureOf a 2 = Some (mdcContent a, SPEEDS (speed a)) /\
  hook (handle a (Interval 2 0)) = step (mdcContent a) (hook a) (Tick 2 0).
Proof.
  apply (interval_uses_current_document "ab").
  - apply session_reachable.
  - reflexivity.
Defined.

Lemma preview_is_prefix_witness :
  let a := session "ab" [ClickStart; Interval 1 (1 # 2); EditContent "xyz";
                         ClickStart; Interval 2 0] in
  String.prefix (streamedText (hook a)) (mdcContent a) = true /\
  Z.of_nat (String.length (streamedText (hook a))) = indexRef (hook a) /\
  0 <= indexRef (hook a) <= len (mdcContent a).
Proof.
  apply (preview_is_prefix "ab").
  unfold session. cbn [fold_left].
  repeat (apply ui_handle;
          [ | reflexivity
            | first [exact Logic.I | split; [vm_compute; discriminate | vm_compute; discriminate]] ]).
  apply ui_initial.
Defined.

End AppShell.

(** ** More on the tree: [extractComponents] and what the walk keeps *)

Module TreeLaws.

Import Renderer.
Local Open Scope string_scope.
Local Open Scope list_scope.

Section Tree.

Context {V : Type}.

Local Abbreviation Node := (@MDCNode V).

(** [traverse] inside [extractComponents] of [lib/mdc-parser.ts];
    [components] is the array that [push] extends. *)
Fixpoint traverse (n : Node) (components : list Node) {struct n} : list Node :=
  let components :=
    if isComponentType (type n) then components ++ [n] else components in
  match children n with
  | Some cs => fold_left (fun acc child => traverse child acc) cs components
  | None => components
  end.

Definition extractComponents (node : Node) : list Node := traverse node [].

(** The node found along the child indices [p], through children of every
    node type. *)
Fixpoint descend (n : Node) (p : list nat) : option Node :=
  match p with
  | [] => Some n
  | i :: p' =>
      match childList n !! i with
      | Some c => descend c p'
      | None => None
      end
  end.

(** Node types whose branch of [renderNode] puts [node.value] into the
    result: text, code and inline code. *)
Definition carriesValue (ty : string) : bool :=
  if String.eqb ty "text" then true
  else if isComponentType ty then false
  else if String.eqb ty "paragraph" then false
  else if String.eqb ty "heading" then false
  else if String.eqb ty "code" then true
  else if String.eqb ty "inlineCode" then true
  else false.

Lemma traverse_fold (cs : list Node) (acc : list Node) :
  Forall (fun c => forall acc, traverse c acc = acc ++ extractComponents c) cs ->
  fold_left (fun acc child => traverse child acc) cs acc =
  acc ++ flat_map extractComponents cs.
Proof.
  intros H. revert acc. induction H as [|c cs Hc _ IH]; intros acc; simpl.
  - now rewrite app_nil_r.
  - rewrite IH, Hc. now rewrite <- app_assoc.
Qed.

Lemma traverse_acc (n : Node) :
  forall acc, traverse n acc = acc ++ extractComponents n.
Proof.
  induction n as [n IH] using MDCNode_induction. intros acc.
  unfold extractComponents. destruct n as [ty nm ch v a d u o].
  unfold childList in IH. simpl in *.
  destruct ch as [cs|]; destruct (isComponentType ty); simpl;
    rewrite ?(traverse_fold cs _ IH), ?app_nil_r; try reflexivity.
  now rewrite <- app_assoc.
Qed.

(** X14: [extractComponents] returns the component nodes of the tree in
    document order: the node itself if it is a component, then the
    components of its children, one child after the other. *)
Theorem extractComponents_preorder (n : Node) :
  extractComponents n =
  ((if isComponentType (type n) then [n] else []) ++
   flat_map extractComponents (childList n))%list.
Proof.
  unfold extractComponents at 1. destruct n as [ty nm ch v a d u o].
  unfold childList. simpl. destruct ch as [cs|].
  - rewrite traverse_fold.
    + now destruct (isComponentType ty).
    + apply Forall_forall. intros c _. apply traverse_acc.
  - destruct (isComponentType ty); reflexivity.
Qed.

(** X15: a node is in the result of [extractComponents] exactly when it is
    a component node found somewhere in the tree, at any depth and below
    nodes of any type. *)
Theorem extractComponents_complete (n : Node) :
  forall m,
    In m (extractComponents n) <->
    exists p, descend n p = Some m /\ isComponentType (type m) = true.
Proof.
  induction n as [n IH] using MDCNode_induction. intros m.
  rewrite extractComponents_preorder, in_app_iff, in_flat_map.
  rewrite Forall_forall in IH. split.
  - intros [Hm | (c & Hc & Hm)].
    + destruct (isComponentType (type n)) eqn:E; [|destruct Hm].
      destruct Hm as [<- | []]. now exists [].
    + pose proof Hc as Hc'. apply In_lookup in Hc' as [i Hi].
      apply list_elem_of_In in Hc.
      apply (IH c Hc) in Hm as (p & Hp & Ht).
      exists (i :: p). simpl. rewrite Hi. now split.
  - intros ([|i p] & Hp & Ht); simpl in Hp.
    + injection Hp as <-. left. rewrite Ht. now left.
    + destruct (childList n !! i) as [c|] eqn:Hi; [|discriminate].
      assert (Hc : In c (childList n)) by (apply In_lookup; eauto).
      right. exists c. split; [exact Hc|].
      apply list_elem_of_In in Hc. apply (IH c Hc). now exists p.
Qed.

Lemma visit_descend (p : list nat) :
  forall (n m : Node), visit n p = Some m -> descend n p = Some m.
Proof.
  induction p as [|i p IH]; intros n m H; simpl in *; [exact H|].
  destruct (rendersChildren (type n)); [|discriminate].
  destruct (childList n !! i); [now apply IH | discriminate].
Qed.

(** X16: every component node that the render walk reaches is among the
    nodes that [extractComponents] returns. *)
Theorem rendered_components_extracted (n m : Node) (p : list nat) :
  visit n p = Some m -> isComponentType (type m) = true ->
  In m (extractComponents n).
Proof.
  intros Hv Ht. apply extractComponents_complete. exists p.
  split; [now apply visit_descend | exact Ht].
Qed.

End Tree.

Section Kept.

Context {V C : Type}.
Variable toLowerCase : string -> string.
Variable keyOf : V -> option string.
Variable otherReserved : list string.

Local Abbreviation Node := (@MDCNode V).
Local Abbreviation Out := (@ReactNode V C).
Local Abbreviation renderNode := (@renderNode V C toLowerCase keyOf otherReserved).
Local Abbreviation renderChildren := (@renderChildren V C toLowerCase keyOf otherReserved).
Local Abbreviation RenderedChildren := (@RenderedChildren V C toLowerCase keyOf otherReserved).

Lemma texts_ofString (v : option string) (s : string) :
  v = Some s -> In s (texts (@ofString V C v)).
Proof. intros ->. now left. Qed.

(** The strings of a result: the value of the node if its branch shows it,
    and the strings of the rendered children if its branch walks them. *)
Lemma texts_renderNode customComponents (node : Node) key kids (out : Out) :
  renderChildren customComponents node key = Normal kids ->
  renderNode customComponents node key = Normal out ->
  (carriesValue (type node) = true ->
   forall s, value node = Some s -> In s (texts out)) /\
  (rendersChildren (type node) = true ->
   forall s, In s (texts (ofArray kids)) -> In s (texts out)).
Proof.
  intros Hk. rewrite renderNode_unfold. cbv zeta. rewrite Hk.
  unfold carriesValue, rendersChildren. simpl.
  repeat match goal with
         | |- context [if ?b then _ else _] =>
             lazymatch b with
             | truthy _ => fail
             | _ => destruct b
             end
         end;
    try match goal with
        | |- context [match ?m with Some _ => _ | None => _ end = Normal _] =>
            destruct m
        end;
    intros H; injection H as <-; split; intros Ht s Hs;
    try discriminate Ht; simpl; rewrite ?app_nil_r, ?in_app_iff;
    try (now apply texts_ofString); try assumption;
    try (left; now apply texts_ofString); auto.
  destruct kids; [exact Hs | destruct Hs].
Qed.

Lemma texts_children customComponents (node : Node) key kids :
  RenderedChildren customComponents node key kids ->
  forall i child (out : Out) s,
    childList node !! i = Some child ->
    renderNode customComponents child (childKey key i) = Normal out ->
    In s (texts out) -> In s (texts (ofArray kids)).
Proof.
  unfold Renderer.RenderedChildren, childList.
  destruct (children node) as [cs|], kids as [outs|]; try tauto; simpl.
  - intros [_ Hget] i child out s Hc Hr Hs.
    destruct (Hget i child Hc) as (out' & Ho & Hr').
    apply in_flat_map. exists out. split; [|exact Hs].
    apply In_lookup. exists i. congruence.
  - intros _ i child out s Hc. discriminate Hc.
Qed.

(** X17: the walk drops no content: the value of every text, code and
    inline-code node that the walk reaches is among the strings of the
    result. *)
Theorem walk_keeps_text customComponents (node : Node) :
  forall key (out : Out),
    renderNode customComponents node key = Normal out ->
    forall p m s,
      visit node p = Some m -> carriesValue (type m) = true ->
      value m = Some s -> In s (texts out).
Proof.
  induction node as [node IH] using MDCNode_induction.
  intros key out Hout p m s Hv Hc Hs.
  destruct (renderChildren_defined toLowerCase keyOf otherReserved customComponents node key)
    as (kids & Hk & Hr).
  destruct (texts_renderNode _ _ _ _ _ Hk Hout) as [Hown Hkids].
  rewrite Forall_forall in IH. destruct p as [|i p]; simpl in Hv.
  - injection Hv as <-. now apply Hown.
  - destruct (rendersChildren (type node)) eqn:Er; [|discriminate].
    destruct (childList node !! i) as [child|] eqn:Hi; [|discriminate].
    destruct (renderNode_total toLowerCase keyOf otherReserved customComponents child
                (childKey key i)) as [o Hro].
    apply Hkids; [reflexivity|].
    apply (texts_children _ _ _ _ Hr i child o s Hi Hro).
    assert (Hel : child ∈ childList node)
      by (apply list_elem_of_lookup; eauto).
    apply (IH child Hel _ _ Hro p m s Hv Hc Hs).
Qed.

(** X18: the placeholder for an unknown component. When the lower-cased
    name of a component node is neither an entry of the registry nor a
    property that the registry inherits, the result is an element with the
    key of the node that shows the label, the name as written, and the
    content of everything below the node that the walk reaches. *)
Theorem fallback_keeps_name_and_content (reg : gmap string C) (node : Node) key :
  isComponentType (type node) = true ->
  getProperty reg (componentName toLowerCase node) = None ->
  exists out : Out,
    renderNode (Some reg) node key = Normal out /\
    keys out <> [] /\ In key (keys out) /\
    In "Unknown component: " (texts out) /\
    (forall nm, name node = Some nm -> In nm (texts out)) /\
    (forall p m s,
       visit node p = Some m -> carriesValue (type m) = true ->
       value m = Some s -> In s (texts out)).
Proof.
  intros Hc Hg.
  destruct (unknown_component_fallback toLowerCase keyOf otherReserved reg node key Hc Hg)
    as (kids & Hr & Hout).
  eexists. split; [exact Hout|]. split; [discriminate|].
  split; [now left|]. split; [now left|]. split.
  - intros nm Hn. simpl. right. rewrite Hn. now left.
  - intros p m s. now apply (walk_keeps_text (Some reg) node key _ Hout).
Qed.

End Kept.

(** *** Keys are unique *)

(** No character of the string is a dash. *)
Fixpoint noDash (s : string) : bool :=
  match s with
  | EmptyString => true
  | String c s' => negb (Ascii.eqb c "-") && noDash s'
  end.

(** The string is empty or begins with a dash. *)
Definition dashed (s : string) : bool :=
  match s with
  | EmptyString => true
  | String c _ => Ascii.eqb c "-"
  end.

(** What [pathKey] appends to the key of the root. *)
Fixpoint suffix (p : list nat) : string :=
  match p with
  | [] => ""
  | i :: p' => "-" +:+ pretty i +:+ suffix p'
  end.

Lemma append_nil_l (s : string) : "" +:+ s = s.
Proof. reflexivity. Qed.

Lemma append_cons (x : ascii) (a b : string) :
  String x a +:+ b = String x (a +:+ b).
Proof. reflexivity. Qed.

Lemma append_assoc (a b c : string) : (a +:+ b) +:+ c = a +:+ (b +:+ c).
Proof.
  induction a as [|x a IH]; [reflexivity|].
  change (String x ((a +:+ b) +:+ c) = String x (a +:+ (b +:+ c))).
  now rewrite IH.
Qed.

Lemma append_cancel (a b c : string) : a +:+ b = a +:+ c -> b = c.
Proof.
  induction a as [|x a IH]; intros H; [exact H|].
  change (String x (a +:+ b) = String x (a +:+ c)) in H.
  injection H as H. now apply IH.
Qed.

Lemma append_self (a b : string) : a = a +:+ b -> b = "".
Proof.
  induction a as [|x a IH]; intros H; [now symmetry|].
  change (String x a = String x (a +:+ b)) in H.
  injection H as H. now apply IH.
Qed.

Lemma append_nil_r (a : string) : a +:+ "" = a.
Proof.
  induction a as [|x a IH]; [reflexivity|].
  change (String x (a +:+ "") = String x a). now rewrite IH.
Qed.

Lemma pathKey_suffix (p : list nat) :
  forall key, pathKey key p = key +:+ suffix p.
Proof.
  induction p as [|i p IH]; intros key.
  - cbn [pathKey suffix]. now rewrite append_nil_r.
  - cbn [pathKey suffix]. rewrite IH. unfold childKey.
    now rewrite !append_assoc.
Qed.

Lemma dashed_suffix (p : list nat) : dashed (suffix p) = true.
Proof. destruct p; reflexivity. Qed.

Lemma noDash_pretty_N_go (x : N) :
  forall s, noDash s = true -> noDash (pretty_N_go x s) = true.
Proof.
  induction (N.lt_wf_0 x) as [x _ IH]. intros s Hs.
  destruct (N.eq_dec x 0%N) as [-> | Hx].
  - now rewrite pretty_N_go_0.
  - rewrite pretty_N_go_step by lia. apply IH.
    + apply N.div_lt; lia.
    + simpl. rewrite Hs. unfold pretty_N_char.
      repeat case_match; reflexivity.
Qed.

Lemma noDash_pretty (i : nat) : noDash (pretty i) = true.
Proof.
  unfold pretty, pretty_nat, pretty, pretty_N.
  destruct (decide (N.of_nat i = 0%N)); [reflexivity|].
  now apply noDash_pretty_N_go.
Qed.

(** Two digit strings followed by dashed rests are equal only if the digit
    strings are. *)
Lemma digits_then_dashed (a : string) :
  forall b ta tb,
    noDash a = true -> noDash b = true ->
    dashed ta = true -> dashed tb = true ->
    a +:+ ta = b +:+ tb -> a = b.
Proof.
  induction a as [|x a IH]; intros [|y b] ta tb Ha Hb Hta Htb H;
    rewrite ?append_nil_l, ?append_cons in H; simpl in *; try reflexivity.
  - subst ta. simpl in Hta. apply andb_prop in Hb as [Hy _].
    rewrite Hta in Hy. discriminate.
  - subst tb. simpl in Htb. apply andb_prop in Ha as [Hx _].
    rewrite Htb in Hx. discriminate.
  - injection H as -> H. apply andb_prop in Ha as [_ Ha].
    apply andb_prop in Hb as [_ Hb]. f_equal.
    now apply (IH b ta tb).
Qed.

Lemma childKey_paths_disjoint (key : string) (i j : nat) (p q : list nat) :
  pathKey (childKey key i) p = pathKey (childKey key j) q -> i = j.
Proof.
  rewrite !pathKey_suffix. unfold childKey. rewrite !append_assoc.
  intros H. apply append_cancel in H. rewrite !append_cons in H.
  injection H as H. rewrite !append_nil_l in H. apply (inj pretty).
  apply (digits_then_dashed _ _ (suffix p) (suffix q));
    auto using noDash_pretty, dashed_suffix.
Qed.

Lemma childKey_path_not_parent (key : string) (i : nat) (p : list nat) :
  pathKey (childKey key i) p <> key.
Proof.
  rewrite pathKey_suffix. unfold childKey. rewrite !append_assoc.
  intros H. symmetry in H. apply append_self in H. discriminate H.
Qed.

Lemma NoDup_flat_map_lookup {A B} (f : A -> list B) (l : list A) :
  (forall i x, l !! i = Some x -> NoDup (f x)) ->
  (forall i j x y b,
     l !! i = Some x -> l !! j = Some y -> In b (f x) -> In b (f y) ->
     i = j) ->
  NoDup (flat_map f l).
Proof.
  induction l as [|a l IH]; intros Hn Hd; simpl; [constructor|].
  apply NoDup_app. split; [apply (Hn 0%nat a eq_refl)|]. split.
  - intros b Hb Hb'. apply list_elem_of_In in Hb, Hb'.
    apply in_flat_map in Hb' as (y & Hy & Hby).
    apply In_lookup in Hy as [j Hj].
    pose proof (Hd 0%nat (S j) a y b eq_refl Hj Hb Hby). discriminate.
  - apply IH.
    + intros i x Hi. apply (Hn (S i) x Hi).
    + intros i j x y b Hi Hj Hx Hy.
      pose proof (Hd (S i) (S j) x y b Hi Hj Hx Hy). lia.
Qed.

Section Unique.

Context {V C : Type}.
Variable toLowerCase : string -> string.
Variable keyOf : V -> option string.
Variable otherReserved : list string.

Local Abbreviation Node := (@MDCNode V).
Local Abbreviation Out := (@ReactNode V C).
Local Abbreviation renderNode := (@renderNode V C toLowerCase keyOf otherReserved).

Lemma keys_are_below customComponents (node : Node) key (out : Out) k :
  keyFree keyOf node = true ->
  renderNode customComponents node key = Normal out ->
  In k (keys out) -> exists p, k = pathKey key p.
Proof.
  intros Hf Hout Hk.
  apply (keys_visit toLowerCase keyOf otherReserved customComponents node key
           out Hout) in Hk as (p & m & Hv & _ & ->).
  exists p. apply keyFree_elementKey. apply (keyFree_visit keyOf p node m Hf Hv).
Qed.

(** X19: in the render of a tree in which no node has a [key] among its
    attributes, no two elements carry the same key, at any depth: the keys
    that [renderNode] hands out are pairwise distinct. *)
Theorem keys_unique customComponents (node : Node) :
  keyFree keyOf node = true ->
  forall key (out : Out),
    renderNode customComponents node key = Normal out -> NoDup (keys out).
Proof.
  induction node as [node IH] using MDCNode_induction. intros Hf key out Hout.
  destruct (renderChildren_defined toLowerCase keyOf otherReserved
              customComponents node key) as (kids & Hk & Hr).
  rewrite (keys_renderNode toLowerCase keyOf otherReserved _ _ _ _ _ Hk Hout).
  rewrite (keyFree_elementKey toLowerCase keyOf customComponents node key Hf).
  destruct (keyFree_children keyOf node Hf) as [_ Hfc].
  rewrite Forall_forall in IH, Hfc.
  assert (Hbelow : forall k, In k (keys (ofArray kids)) ->
            exists i p, k = pathKey (childKey key i) p).
  { intros k Hin.
    apply (keys_children toLowerCase keyOf otherReserved _ _ _ _ Hr) in Hin
      as (i & child & o & Hc & Hro & Hko).
    assert (Hel : child ∈ childList node)
      by (apply list_elem_of_lookup; eauto).
    destruct (keys_are_below _ _ _ _ _ (Hfc child Hel) Hro Hko) as [p ->].
    now exists i, p. }
  assert (Hkids : NoDup (keys (ofArray kids))).
  { clear Hbelow. unfold Renderer.RenderedChildren in Hr.
    destruct kids as [outs|]; [|constructor]. simpl.
    destruct (children node) as [cs|] eqn:Ech; [|destruct Hr].
    destruct Hr as [Hlen Hget].
    assert (Hchild : forall i o, outs !! i = Some o ->
              exists child, child ∈ childList node /\
                renderNode customComponents child (childKey key i) = Normal o).
    { intros i o Ho. unfold childList. rewrite Ech.
      destruct (lookup_lt_is_Some_2 cs i) as [child Hc].
      { rewrite <- Hlen. eapply lookup_lt_Some, Ho. }
      destruct (Hget i child Hc) as (o' & Ho' & Hro).
      exists child. split; [apply list_elem_of_lookup; eauto | congruence]. }
    apply NoDup_flat_map_lookup.
    - intros i o Ho. destruct (Hchild i o Ho) as (child & Hel & Hro).
      apply (IH child Hel (Hfc child Hel) _ _ Hro).
    - intros i j x y b Hi Hj Hx Hy.
      destruct (Hchild i x Hi) as (ci & Heli & Hri).
      destruct (Hchild j y Hj) as (cj & Helj & Hrj).
      destruct (keys_are_below _ _ _ _ _ (Hfc ci Heli) Hri Hx) as [p Hp].
      destruct (keys_are_below _ _ _ _ _ (Hfc cj Helj) Hrj Hy) as [q Hq].
      apply (childKey_paths_disjoint key i j p q). congruence. }
  destruct (producesElement (type node)),
           (rendersChildren (type node)); simpl.
  - constructor; [|exact Hkids]. intros Hin. apply list_elem_of_In in Hin.
    destruct (Hbelow key Hin) as (i & p & Hp).
    symmetry in Hp. now apply childKey_path_not_parent in Hp.
  - constructor; [|constructor]. intros Hin. apply list_elem_of_In in Hin.
    destruct Hin.
  - exact Hkids.
  - constructor.
Qed.

(** X20: the children of one node get pairwise distinct keys, all distinct
    from the key of the node. *)
Theorem sibling_keys_distinct (key : string) (i j : nat) :
  (childKey key i = childKey key j -> i = j) /\ childKey key i <> key.
Proof.
  split.
  - apply (childKey_paths_disjoint key i j [] []).
  - apply (childKey_path_not_parent key i []).
Qed.

End Unique.

Section Registry.

Context {V C : Type}.
Variable toLowerCase : string -> string.
Variable keyOf : V -> option string.
Variable otherReserved : list string.

Local Abbreviation Node := (@MDCNode V).
Local Abbreviation renderNode := (@renderNode V C toLowerCase keyOf otherReserved).

Lemma mapIdx_ext {A B} (f g : A -> nat -> completion B) (l : list A) :
  Forall (fun a => forall i, f a i = g a i) l ->
  forall i, mapIdx f i l = mapIdx g i l.
Proof.
  induction 1 as [|a l Ha _ IH]; intros i; simpl; [reflexivity|].
  now rewrite Ha, IH.
Qed.

Lemma flat_map_nil {A B} (f : A -> list B) (l : list A) :
  flat_map f l = [] -> Forall (fun a => f a = []) l.
Proof.
  induction l as [|a l IH]; simpl; intros H; constructor.
  - now apply app_eq_nil in H.
  - apply IH. now apply app_eq_nil in H.
Qed.

(** X23: the registry matters for component nodes only: a tree in which
    [extractComponents] finds no component renders to the same result with
    any two registries (and with none). *)
Theorem registry_only_for_components (r1 r2 : option (gmap string C))
    (node : Node) :
  extractComponents node = [] ->
  forall key, renderNode r1 node key = renderNode r2 node key.
Proof.
  induction node as [node IH] using MDCNode_induction. intros He key.
  rewrite extractComponents_preorder in He.
  apply app_eq_nil in He as [Hown Hkids].
  assert (Hc : isComponentType (type node) = false)
    by (destruct (isComponentType (type node)); [discriminate | reflexivity]).
  apply flat_map_nil in Hkids.
  assert (Hrc : Renderer.renderChildren toLowerCase keyOf otherReserved r1 node key =
                Renderer.renderChildren toLowerCase keyOf otherReserved r2 node key).
  { unfold Renderer.renderChildren, optCallMethod, arrayMap, childList in *.
    destruct (children node) as [cs|]; [|reflexivity].
    rewrite (mapIdx_ext
               (fun child i => renderNode r1 child (childKey key i))
               (fun child i => renderNode r2 child (childKey key i)) cs);
      [reflexivity|].
    rewrite Forall_forall in IH, Hkids. apply Forall_forall.
    intros c Hin i. apply (IH c Hin). now apply Hkids. }
  rewrite !renderNode_unfold. cbv zeta. rewrite Hrc, Hc. reflexivity.
Qed.

End Registry.

(** *** Concrete trees *)

Definition alertTree : @MDCNode string :=
  parent "root"
    [parent "paragraph" [textNode "Intro"];
     container "alert" {[ "type" := "warning" ]}
       [parent "paragraph" [textNode "Text"]]].

Lemma rendered_components_extracted_witness :
  In (container "alert" {[ "type" := "warning" ]}
        [parent "paragraph" [textNode "Text"]])
     (extractComponents alertTree).
Proof.
  apply (rendered_components_extracted alertTree
           (container "alert" {[ "type" := "warning" ]}
              [parent "paragraph" [textNode "Text"]]) [1%nat]);
    reflexivity.
Defined.

Lemma walk_keeps_text_witness :
  exists out,
    render fullTree "root" = Normal out /\ In "world" (texts out).
Proof.
  destruct (renderNode_total asciiLower Some [] (Some mdcComponents) fullTree "root")
    as [out Hout].
  exists out. split; [exact Hout|].
  apply (walk_keeps_text asciiLower Some [] (Some mdcComponents) fullTree "root" out
           Hout [1%nat; 1%nat; 0%nat] (textNode "world") "world");
    reflexivity.
Defined.

Lemma fallback_keeps_name_and_content_witness :
  exists out,
    render (container "widget" ∅ [parent "paragraph" [textNode "Text"]])
           "root-0" = Normal out /\
    keys out <> [] /\ In "root-0" (keys out) /\
    In "Unknown component: " (texts out) /\
    (forall nm, Some "widget" = Some nm -> In nm (texts out)) /\
    (forall p m s,
       visit (container "widget" ∅ [parent "paragraph" [textNode "Text"]]) p
         = Some m ->
       carriesValue (type m) = true ->
       value m = Some s -> In s (texts out)).
Proof.
  apply (fallback_keeps_name_and_content asciiLower Some [] mdcComponents
           (container "widget" ∅ [parent "paragraph" [textNode "Text"]])
           "root-0").
  - reflexivity.
  - vm_compute. reflexivity.
Defined.

Lemma registry_only_for_components_witness :
  renderNode asciiLower Some [] (Some mdcComponents) fullTree "root" =
  renderNode asciiLower Some [] (Some (∅ : gmap string Builtin)) fullTree "root".
Proof.
  apply (registry_only_for_components asciiLower Some [] (Some mdcComponents)
           (Some ∅) fullTree).
  reflexivity.
Defined.

Lemma keys_unique_witness :
  keyFree Some alertTree = true /\
  exists out, render alertTree "root" = Normal out /\ NoDup (keys out).
Proof.
  split; [vm_compute; reflexivity|].
  destruct (renderNode_total asciiLower Some [] (Some mdcComponents)
              alertTree "root") as [out Hout].
  exists out. split; [exact Hout|].
  apply (keys_unique asciiLower Some [] (Some mdcComponents) alertTree)
    with (key := "root"); [vm_compute; reflexivity | exact Hout].
Defined.

End TreeLaws.

(** ** The components of [MDCComponents.tsx] *)

Module Handlers.

Import Renderer.
Local Open Scope string_scope.

(** The [styles] table of [Alert]. *)
Definition alertStyles : gmap string string :=
  {[ "info" := "bg-blue-500/10 border-blue-500 text-blue-200";
     "warning" := "bg-yellow-500/10 border-yellow-500 text-yellow-200";
     "error" := "bg-red-500/10 border-red-500 text-red-200";
     "success" := "bg-green-500/10 border-green-500 text-green-200" ]}.

(** The [colors] table of [Badge]. *)
Definition badgeColors : gmap string string :=
  {[ "blue" := "bg-blue-500/20 text-blue-300 border-blue-500/30";
     "green" := "bg-green-500/20 text-green-300 border-green-500/30";
     "red" := "bg-red-500/20 text-red-300 border-red-500/30";
     "yellow" := "bg-yellow-500/20 text-yellow-300 border-yellow-500/30";
     "purple" := "bg-purple-500/20 text-purple-300 border-purple-500/30" ]}.

Section Components.

(** [V], [C]: as for the render walk; the components build host elements
    only. [inheritedText k] is the text that a template literal gives for
    the property [k] that a table inherits from [Object.prototype] (for
    [constructor], the source text of the [Object] function). Props are the
    string attributes of the node. *)
Context {V C : Type}.
Variable inheritedText : string -> string.

Local Abbreviation Out := (@ReactNode V C).

(** [`${table[k] || table[fallback]}`] for a table written as an object
    literal: the entry for [k] if it is a non-empty string, the text of an
    inherited property if [k] names one, else the entry for [fallback]. *)
Definition entryOr (table : gmap string string) (k fallback : string) : string :=
  match table !! k with
  | Some (String c s) => String c s
  | Some EmptyString => default "undefined" (table !! fallback)
  | None =>
      if bool_decide (k ∈ objectPrototypeKeys) then inheritedText k
      else default "undefined" (table !! fallback)
  end.

(** [{title && <tag className=...>{title}</tag>}] *)
Definition titled (tag cls : string) (title : option string) : Out :=
  match title with
  | None => RUndefined
  | Some EmptyString => RString ""
  | Some t => RElement (Tag tag) None [Attr "className" (Some cls)] [RString t]
  end.

Definition Alert (props : gmap string string) (children : Out) : Out :=
  let type := default "info" (props !! "type") in
  RElement (Tag "div") None
    [Attr "className"
       (Some ("p-4 rounded-lg border-l-4 my-4 " +:+
              entryOr alertStyles type "info"))]
    [children].

Definition Callout (props : gmap string string) (children : Out) : Out :=
  let icon := default "📌" (props !! "icon") in
  RElement (Tag "div") None
    [Attr "className"
       (Some "bg-zinc-800/50 rounded-lg p-4 my-4 border border-zinc-700")]
    [RElement (Tag "div") None
       [Attr "className" (Some "flex items-start gap-3")]
       [RElement (Tag "span") None [Attr "className" (Some "text-2xl")]
          [RString icon];
        RElement (Tag "div") None [Attr "className" (Some "flex-1")]
          [titled "h4" "font-semibold mb-2 text-white" (props !! "title");
           RElement (Tag "div") None
             [Attr "className" (Some "text-zinc-300")] [children]]]].

Definition Card (props : gmap string string) (children : Out) : Out :=
  RElement (Tag "div") None
    [Attr "className"
       (Some "bg-zinc-900 rounded-xl p-6 my-4 border border-zinc-800 shadow-lg")]
    [titled "h3" "text-xl font-bold mb-3 text-white" (props !! "title");
     RElement (Tag "div") None [Attr "className" (Some "text-zinc-300")]
       [children]].

Definition Badge (props : gmap string string) (children : Out) : Out :=
  let color := default "blue" (props !! "color") in
  RElement (Tag "span") None
    [Attr "className"
       (Some ("inline-flex px-2 py-0.5 rounded-full text-sm font-medium border "
              +:+ entryOr badgeColors color "blue"))]
    [children].

Definition CodeGroup (props : gmap string string) (children : Out) : Out :=
  RElement (Tag "div") None
    [Attr "className"
       (Some "bg-zinc-900 rounded-lg overflow-hidden my-4 border border-zinc-800")]
    [RElement (Tag "div") None
       [Attr "className" (Some "flex border-b border-zinc-800 bg-zinc-800/50")]
       [RElement (Tag "span") None
          [Attr "className" (Some "px-4 py-2 text-sm text-zinc-400")]
          [RString "Code"]];
     RElement (Tag "div") None [Attr "className" (Some "p-4")] [children]].

(** The function behind each entry of [mdcComponents]. *)
Definition component (b : Builtin) : gmap string string -> Out -> Out :=
  match b with
  | Renderer.Alert => Alert
  | Renderer.Callout => Callout
  | Renderer.Card => Card
  | Renderer.Badge => Badge
  | Renderer.CodeGroup => CodeGroup
  end.

(** The [className] of an element. *)
Definition className (r : Out) : option string :=
  match r with
  | RElement _ _ (Attr "className" v :: _) _ => v
  | _ => None
  end.

(** X21: [Alert] takes the style of its [type] when that is one of the
    four entries of its table; without a [type], and with any other type
    that is not the name of an inherited property, it takes the [info]
    style. [Badge] does the same with its [color] and [blue]. *)
Theorem style_fallback (props : gmap string string) (children : Out) :
  (forall t s, props !! "type" = Some t -> alertStyles !! t = Some s ->
     className (Alert props children) =
     Some ("p-4 rounded-lg border-l-4 my-4 " +:+ s)) /\
  ((props !! "type" = None \/
    exists t, props !! "type" = Some t /\ alertStyles !! t = None /\
              t ∉ objectPrototypeKeys) ->
   className (Alert props children) =
   Some "p-4 rounded-lg border-l-4 my-4 bg-blue-500/10 border-blue-500 text-blue-200") /\
  (forall c s, props !! "color" = Some c -> badgeColors !! c = Some s ->
     className (Badge props children) =
     Some ("inline-flex px-2 py-0.5 rounded-full text-sm font-medium border "
           +:+ s)) /\
  ((props !! "color" = None \/
    exists c, props !! "color" = Some c /\ badgeColors !! c = None /\
              c ∉ objectPrototypeKeys) ->
   className (Badge props children) =
   Some "inline-flex px-2 py-0.5 rounded-full text-sm font-medium border bg-blue-500/20 text-blue-300 border-blue-500/30").
Proof.
  assert (Ha : forall t s, alertStyles !! t = Some s -> s <> "").
  { intros t s H. unfold alertStyles in H.
    repeat (apply lookup_insert_Some in H as [[_ <-] | [_ H]];
            [discriminate|]).
    apply lookup_singleton_Some in H as [_ <-]. discriminate. }
  assert (Hb : forall t s, badgeColors !! t = Some s -> s <> "").
  { intros t s H. unfold badgeColors in H.
    repeat (apply lookup_insert_Some in H as [[_ <-] | [_ H]];
            [discriminate|]).
    apply lookup_singleton_Some in H as [_ <-]. discriminate. }
  repeat split.
  - intros t s Ht Hs. unfold Alert, entryOr. rewrite Ht. simpl. rewrite Hs.
    specialize (Ha t s Hs). now destruct s.
  - intros [Hn | (t & Ht & Hs & Hk)]; unfold Alert, entryOr.
    + rewrite Hn. reflexivity.
    + rewrite Ht. simpl. rewrite Hs.
      now rewrite bool_decide_eq_false_2 by exact Hk.
  - intros c s Hc Hs. unfold Badge, entryOr. rewrite Hc. simpl. rewrite Hs.
    specialize (Hb c s Hs). now destruct s.
  - intros [Hn | (c & Hc & Hs & Hk)]; unfold Badge, entryOr.
    + rewrite Hn. reflexivity.
    + rewrite Hc. simpl. rewrite Hs.
      now rewrite bool_decide_eq_false_2 by exact Hk.
Qed.

Lemma keys_titled (tag cls : string) (title : option string) :
  keys (titled tag cls title) = [].
Proof. destruct title as [[|c t]|]; reflexivity. Qed.

(** X22: every component of the registry puts its children into its
    result: the result has the keys of the children and no others, and every
    string of the children is a string of the result. *)
Theorem components_keep_children (b : Builtin) (props : gmap string string)
    (children : Out) :
  keys (component b props children) = keys children /\
  (forall s, In s (texts children) -> In s (texts (component b props children))).
Proof.
  destruct b; simpl; rewrite ?keys_titled, ?app_nil_r; split;
    try reflexivity; intros s Hs; rewrite ?in_app_iff; auto 10.
Qed.

End Components.

End Handlers.
